(** * The doubly-linked circular [list] of [src/src/list.h]

    A shallow embedding of [list<Type>], its [Node] and its [Iterator], over an
    explicit node store, and the properties of the specification that concern
    them.

    Pointers are modelled as optional store addresses ([nullptr] is [None]).
    The store maps every address the allocator has ever handed out to either a
    constructed node or a tombstone left by [traits::deallocate]; addresses are
    never handed out twice, so a pointer to a deallocated node stays invalid.
    Member functions are computations in a state-and-fault monad: a fault is
    undefined behaviour (dereferencing a null or dangling pointer), a failed
    [assert] (assertions are taken as compiled in), or an exhausted iteration
    budget of a loop. Element construction is taken not to throw. *)

From stdpp Require Import gmap list.

#[local] Set Warnings "-clear-no-such-hyp".

(** ** Faults, outcomes and the store monad *)

Inductive fault : Type :=
  | Undefined      (* null or dangling pointer dereference *)
  | AssertFailed   (* [assert(...)] evaluated to false *)
  | OutOfFuel.     (* a loop ran longer than the budget it was given *)

Inductive outcome (S A : Type) : Type :=
  | Ok (a : A) (s : S)
  | Fault (f : fault).
Arguments Ok {S A} a s.
Arguments Fault {S A} f.

Definition M (S A : Type) : Type := S → outcome S A.

Global Instance M_ret {S} : MRet (M S) := λ A a s, Ok a s.
Global Instance M_bind {S} : MBind (M S) := λ A B k m s,
  match m s with
  | Ok a s' => k a s'
  | Fault f => Fault f
  end.

Definition raise {S A} (f : fault) : M S A := λ _, Fault f.

(** ** Data model *)

Definition loc := nat.
Abbreviation ptr := (option loc).

(** Allocator policy flags of [std::allocator_traits], and the instance that
    [using allocator_t = std::allocator<Node>] selects. *)
Record alloc_traits : Type := mkTraits {
  propagate_on_container_copy_assignment : bool;
  propagate_on_container_move_assignment : bool;
  propagate_on_container_swap : bool;
  is_always_equal : bool
}.

Definition std_allocator_traits : alloc_traits :=
  {| propagate_on_container_copy_assignment := false;
     propagate_on_container_move_assignment := true;
     propagate_on_container_swap := false;
     is_always_equal := true |}.

(** [struct list]: the head pointer and the allocator instance. *)
Record list_t : Type := mkList { m_head : ptr; m_alloc : nat }.

(** [struct Iterator]: a cursor. *)
Record Iterator : Type := mkIter { m_cursor : ptr }.

Global Instance Iterator_eq_dec : EqDecision Iterator.
Proof. solve_decision. Defined.

(** The value category of the argument bound to a forwarding reference
    [UType &&data]: an lvalue ([UType] is deduced as [Type &]; a const
    argument behaves the same way) or an rvalue ([UType] is [Type]). *)
Inductive value_category : Type := lvalue | rvalue.

(** [operator==] on iterators compares the cursors. *)
Definition Iterator_eq (lhs rhs : Iterator) : bool :=
  bool_decide (m_cursor lhs = m_cursor rhs).

Section list_model.
Context {T : Type}.
(** The value of [Type m_data{}] in a default-constructed node. *)
Variable T0 : T.
Variable tr : alloc_traits.

(** [struct Node]. *)
Record Node : Type := mkNode { m_data : T; m_prev : ptr; m_next : ptr }.

Abbreviation heap := (gmap loc (option Node)).
Abbreviation hM := (M heap).

(** *** Store primitives *)

Definition load (p : ptr) : hM Node := λ σ,
  match p with
  | None => Fault Undefined
  | Some l =>
      match σ !! l with
      | Some (Some n) => Ok n σ
      | _ => Fault Undefined
      end
  end.

Definition store (p : ptr) (n : Node) : hM unit := λ σ,
  match p with
  | None => Fault Undefined
  | Some l =>
      match σ !! l with
      | Some (Some _) => Ok tt (<[l := Some n]> σ)
      | _ => Fault Undefined
      end
  end.

Definition get_data (p : ptr) : hM T := n ← load p; mret (m_data n).
Definition get_prev (p : ptr) : hM ptr := n ← load p; mret (m_prev n).
Definition get_next (p : ptr) : hM ptr := n ← load p; mret (m_next n).

Definition set_data (p : ptr) (v : T) : hM unit :=
  n ← load p; store p (mkNode v (m_prev n) (m_next n)).
Definition set_prev (p q : ptr) : hM unit :=
  n ← load p; store p (mkNode (m_data n) q (m_next n)).
Definition set_next (p q : ptr) : hM unit :=
  n ← load p; store p (mkNode (m_data n) (m_prev n) q).

(** [traits::allocate] followed by [traits::construct]: a node at an address
    never used before, holding [v], with [m_prev{this}] and [m_next{this}]. *)
Definition construct_at_fresh (v : T) : hM ptr := λ σ,
  let l := fresh (dom σ) in
  Ok (Some l) (<[l := Some (mkNode v (Some l) (Some l))]> σ).

(** [traits::destroy] followed by [traits::deallocate]. *)
Definition destroy_deallocate (p : ptr) : hM unit := λ σ,
  match p with
  | None => Fault Undefined
  | Some l =>
      match σ !! l with
      | Some (Some _) => Ok tt (<[l := None]> σ)
      | _ => Fault Undefined
      end
  end.

(** *** [Node::push_front], [Node::push_back] *)

Definition Node_push_front (this node : ptr) : hM unit :=
  tn ← get_next this;
  set_next node tn;;
  set_prev node this;;
  tn' ← get_next this;
  set_prev tn' node;;
  set_next this node.

Definition Node_push_back (this node : ptr) : hM unit :=
  tp ← get_prev this;
  set_prev node tp;;
  set_next node this;;
  tp' ← get_prev this;
  set_next tp' node;;
  set_prev this node.

(** *** Iterator operations *)

(** [operator*]. *)
Definition Iterator_deref (it : Iterator) : hM T := get_data (m_cursor it).

(** [operator++()], also [std::ranges::next(it)] and [std::ranges::advance(it, 1)]. *)
Definition Iterator_incr (it : Iterator) : hM Iterator :=
  n ← get_next (m_cursor it); mret (mkIter n).

(** [operator--()]. *)
Definition Iterator_decr (it : Iterator) : hM Iterator :=
  n ← get_prev (m_cursor it); mret (mkIter n).

(** *** [list]: node factory, construction *)

(** [__M_create_node()] and [__M_create_node(data)]. *)
Definition __M_create_node (v : T) : hM ptr := construct_at_fresh v.

(** [list()]. *)
Definition list_default : hM list_t :=
  h ← __M_create_node T0; mret (mkList h 0).

(** [begin()], [end()]. *)
Definition begin (l : list_t) : hM Iterator :=
  n ← get_next (m_head l); mret (mkIter n).
Definition end_ (l : list_t) : Iterator := mkIter (m_head l).

(** *** Insertion *)

Definition assert_head (l : list_t) : hM unit :=
  if bool_decide (m_head l ≠ None) then mret tt else raise AssertFailed.

Definition push_back (l : list_t) (data : T) : hM unit :=
  assert_head l;;
  node ← __M_create_node data;
  Node_push_back (m_head l) node.

Definition push_front (l : list_t) (data : T) : hM unit :=
  assert_head l;;
  node ← __M_create_node data;
  Node_push_front (m_head l) node.

(** [insert_after(position, data)], [insert_before(position, data)]. *)
Definition insert_after (l : list_t) (position : Iterator) (data : T) : hM unit :=
  node ← __M_create_node data;
  Node_push_front (m_cursor position) node.

Definition insert_before (l : list_t) (position : Iterator) (data : T) : hM unit :=
  node ← __M_create_node data;
  Node_push_back (m_cursor position) node.

(** [insert_before(position, first, last)]:
    [while (first != last) insert_before(position, *first++)]. *)
Fixpoint insert_before_range (fuel : nat) (l : list_t)
    (position first last : Iterator) : hM unit :=
  match fuel with
  | 0 => raise OutOfFuel
  | S fuel' =>
      if Iterator_eq first last then mret tt
      else
        first' ← Iterator_incr first;
        v ← Iterator_deref first;
        insert_before l position v;;
        insert_before_range fuel' l position first' last
  end.

(** *** Removal *)

(** [erase(position)]. *)
Definition erase (l : list_t) (position : Iterator) : hM Iterator :=
  let target := m_cursor position in
  tp ← get_prev target;
  tn ← get_next target;
  set_next tp tn;;
  tn' ← get_next target;
  tp' ← get_prev target;
  set_prev tn' tp';;
  next ← get_next target;
  destroy_deallocate target;;
  mret (mkIter next).

(** [erase(first, last)]: [while (first != last) erase(first++)]. *)
Fixpoint erase_range (fuel : nat) (l : list_t) (first last : Iterator) : hM Iterator :=
  match fuel with
  | 0 => raise OutOfFuel
  | S fuel' =>
      if Iterator_eq first last then mret last
      else
        first' ← Iterator_incr first;
        erase l first;;
        erase_range fuel' l first' last
  end.

Definition pop_front (l : list_t) : hM unit :=
  it ← begin l; erase l it;; mret tt.

Definition pop_back (l : list_t) : hM unit :=
  p ← get_prev (m_head l); erase l (mkIter p);; mret tt.

(** *** Queries *)

(** [empty()]: [(m_head != nullptr) || ((m_head->m_prev == m_head) &&
    (m_head->m_next == m_head))], with the short-circuit evaluation of
    [||] and [&&]. *)
Definition empty (l : list_t) : hM bool :=
  if bool_decide (m_head l ≠ None) then mret true
  else
    hp ← get_prev (m_head l);
    if bool_decide (hp = m_head l) then
      hn ← get_next (m_head l);
      mret (bool_decide (hn = m_head l))
    else mret false.

(** [std::distance(first, last)] on a bidirectional iterator. *)
Fixpoint distance (fuel : nat) (first last : Iterator) : hM nat :=
  match fuel with
  | 0 => raise OutOfFuel
  | S fuel' =>
      if Iterator_eq first last then mret 0
      else
        first' ← Iterator_incr first;
        n ← distance fuel' first' last;
        mret (S n)
  end.

(** [size()]. *)
Definition size (fuel : nat) (l : list_t) : hM nat :=
  b ← begin l; distance fuel b (end_ l).

(** [front()], [back()]: the optional holds a reference to [m_data] of a
    node, modelled as the address of that node. *)
Definition front (l : list_t) : hM (option loc) :=
  e ← empty l;
  if (e : bool) then mret None
  else
    hn ← get_next (m_head l);
    load hn;;
    mret hn.

Definition back (l : list_t) : hM (option loc) :=
  e ← empty l;
  if (e : bool) then mret None
  else
    hp ← get_prev (m_head l);
    load hp;;
    mret hp.

(** [clear()]. *)
Fixpoint clear_loop (fuel : nat) (l : list_t) : hM unit :=
  match fuel with
  | 0 => raise OutOfFuel
  | S fuel' =>
      e ← empty l;
      if negb e then pop_front l;; clear_loop fuel' l
      else mret tt
  end.

Definition clear (fuel : nat) (l : list_t) : hM list_t :=
  clear_loop fuel l;;
  destroy_deallocate (m_head l);;
  mret (mkList None (m_alloc l)).

(** The sequence a client reads front to back:
    [for (auto it = l.begin(); it != l.end(); ++it) out.push_back(deref it)]. *)
Fixpoint collect (fuel : nat) (first last : Iterator) : hM (list T) :=
  match fuel with
  | 0 => raise OutOfFuel
  | S fuel' =>
      if Iterator_eq first last then mret ([] : list T)
      else
        v ← Iterator_deref first;
        first' ← Iterator_incr first;
        vs ← collect fuel' first' last;
        mret (v :: vs)
  end.

Definition elements (fuel : nat) (l : list_t) : hM (list T) :=
  b ← begin l; collect fuel b (end_ l).

(** *** Cloning, range initialisation, assignment *)

(** [__M_clone(source)]. In the copy constructor [this->m_head] is not yet
    initialised when this runs; the caller passes the object as it stands. *)
Fixpoint clone_loop (fuel : nat) (cursor source end' : ptr) : hM unit :=
  match fuel with
  | 0 => raise OutOfFuel
  | S fuel' =>
      if bool_decide (source ≠ end') then
        v ← get_data source;
        node ← __M_create_node v;
        Node_push_back cursor node;;
        source' ← get_next source;
        clone_loop fuel' cursor source' end'
      else mret tt
  end.

Definition __M_clone (fuel : nat) (this : list_t) (source : ptr) : hM ptr :=
  if bool_decide (source = None) then
    clear fuel this;; mret source
  else
    cursor ← __M_create_node T0;
    end' ← get_prev source;
    clone_loop fuel cursor source end';;
    mret cursor.

(** [list(const list &outer)]: [select_on_container_copy_construction] of an
    allocator hands back a copy of it. The head member has no value before
    [__M_clone] returns, which the null pointer stands for. *)
Definition list_copy (fuel : nat) (outer : list_t) : hM list_t :=
  let this := mkList None (m_alloc outer) in
  first ← get_next (m_head outer);
  h ← __M_clone fuel this first;
  mret (mkList h (m_alloc outer)).


(** [__M_range_init(first, last)]. *)
Fixpoint __M_range_init (fuel : nat) (this : list_t) (first last : Iterator) : hM unit :=
  match fuel with
  | 0 => raise OutOfFuel
  | S fuel' =>
      if Iterator_eq first last then mret tt
      else
        v ← Iterator_deref first;
        node ← __M_create_node v;
        Node_push_back (m_head this) node;;
        first' ← Iterator_incr first;
        __M_range_init fuel' this first' last
  end.

(** The element-wise loop of [__M_assign]:
    [while ((first != last) && (begin != end)) { *begin = *first; ... }];
    returns the two cursors where it stopped. *)
Fixpoint assign_loop (fuel : nat) (first last begin' end' : Iterator)
    : hM (Iterator * Iterator) :=
  match fuel with
  | 0 => raise OutOfFuel
  | S fuel' =>
      if negb (Iterator_eq first last) && negb (Iterator_eq begin' end') then
        v ← Iterator_deref first;
        set_data (m_cursor begin') v;;
        begin'' ← Iterator_incr begin';
        first' ← Iterator_incr first;
        assign_loop fuel' first' last begin'' end'
      else mret (first, begin')
  end.

(** [__M_assign(first, last)]; returns [*this] as it is afterwards. *)
Definition __M_assign (fuel : nat) (this : list_t) (first last : Iterator) : hM list_t :=
  if Iterator_eq first last then clear fuel this
  else
    e ← empty this;
    if (e : bool) then __M_range_init fuel this first last;; mret this
    else
      b ← begin this;
      '(first', b') ← assign_loop fuel first last b (end_ this);
      (if negb (Iterator_eq first' last)
       then insert_before_range fuel this b' first' last
       else erase_range fuel this b' (end_ this);; mret tt);;
      mret this.

(** [__M_copy_assign(outer, std::true_type)] and
    [__M_copy_assign(outer, std::false_type)]. *)
Definition __M_copy_assign_true (fuel : nat) (this outer : list_t) : hM list_t :=
  this1 ← (if negb (is_always_equal tr) then
             this' ← (if negb (bool_decide (m_alloc this = m_alloc outer))
                      then clear fuel this else mret this);
             mret (mkList (m_head this') (m_alloc outer))
           else mret this);
  b ← begin outer;
  __M_assign fuel this1 b (end_ outer).

Definition __M_copy_assign_false (fuel : nat) (this outer : list_t) : hM list_t :=
  this1 ← clear fuel this;
  b ← begin outer;
  __M_assign fuel this1 b (end_ outer).

(** [operator=(const list &rhs)] for an [rhs] that is another object than
    [*this] (for the same object the guard returns at once). *)
Definition copy_assign (fuel : nat) (this rhs : list_t) : hM list_t :=
  if propagate_on_container_copy_assignment tr
  then __M_copy_assign_true fuel this rhs
  else __M_copy_assign_false fuel this rhs.

(** The friend [swap] at the end of the public part is declared as
    [swap(forward_list &lhs, forward_list &rhs)]. [list.h] declares no
    [forward_list], so the friend takes no [list] and has no embedding here. *)

(** *** Further members of [list] *)

(** [list(Iterator first, Sentinel last)] over iterators of a list:
    [list{}] followed by [__M_range_init(first, last)]. *)
Definition list_range (fuel : nat) (first last : Iterator) : hM list_t :=
  this ← list_default;
  __M_range_init fuel this first last;;
  mret this.

(** [~list()]. *)
Definition list_destroy (fuel : nat) (l : list_t) : hM list_t := clear fuel l.

(** The state in which the move constructor of [Type] leaves the object it
    moves from (the same value for a trivially copyable [Type], an empty
    vector for [std::vector]). *)
Variable moved_from : T → T.

(** What [std::forward<UType>(data)] leaves in [data] once [Node]'s
    constructor has taken it: [Node(Type const &)] copies an lvalue and
    leaves it as it is, [Node(Type &&)] moves from an rvalue. *)
Definition forward_leaves (c : value_category) (data : T) : T :=
  match c with
  | lvalue => data
  | rvalue => moved_from data
  end.

(** [insert_after(position, count, UType &&data)] and
    [insert_before(position, count, UType &&data)] for an argument of type
    [Type]: [while (count--) insert_after(position, std::forward<UType>(data))].
    Every round forwards the same object [data] and inserts at the same
    [position]; [c] is the value category of the argument that [data] is
    bound to. *)
Fixpoint insert_after_count (l : list_t) (position : Iterator) (count : nat)
    (c : value_category) (data : T) : hM unit :=
  match count with
  | 0 => mret tt
  | S count' =>
      insert_after l position data;;
      insert_after_count l position count' c (forward_leaves c data)
  end.

Fixpoint insert_before_count (l : list_t) (position : Iterator) (count : nat)
    (c : value_category) (data : T) : hM unit :=
  match count with
  | 0 => mret tt
  | S count' =>
      insert_before l position data;;
      insert_before_count l position count' c (forward_leaves c data)
  end.

(** [insert_after(position, first, last)]. *)
Fixpoint insert_after_range (fuel : nat) (l : list_t)
    (position first last : Iterator) : hM unit :=
  match fuel with
  | 0 => raise OutOfFuel
  | S fuel' =>
      if Iterator_eq first last then mret tt
      else
        v ← Iterator_deref first;
        insert_after l position v;;
        position' ← Iterator_incr position;
        first' ← Iterator_incr first;
        insert_after_range fuel' l position' first' last
  end.




(** [rbegin()] and [rend()]: the base iterators of the two
    [std::reverse_iterator]s. *)
Definition rbegin (l : list_t) : Iterator := mkIter (m_head l).
Definition rend (l : list_t) : hM Iterator :=
  n ← get_next (m_head l); mret (mkIter n).

(** Reading through reverse iterators,
    [for (auto r = l.rbegin(), e = l.rend(); r != e; ++r) out.push_back(deref r)]:
    a [std::reverse_iterator] compares by its base, dereferences the
    position before its base, and is incremented by decrementing its base. *)
Fixpoint collect_reverse (fuel : nat) (current stop : Iterator) : hM (list T) :=
  match fuel with
  | 0 => raise OutOfFuel
  | S fuel' =>
      if Iterator_eq current stop then mret ([] : list T)
      else
        tmp ← Iterator_decr current;
        v ← Iterator_deref tmp;
        current' ← Iterator_decr current;
        vs ← collect_reverse fuel' current' stop;
        mret (v :: vs)
  end.

Definition elements_reverse (fuel : nat) (l : list_t) : hM (list T) :=
  e ← rend l; collect_reverse fuel (rbegin l) e.



(** *** Client-side use of the interface *)

(** [std::ranges::next(it, k)]: [k] increments. *)
Fixpoint advance (k : nat) (it : Iterator) : hM Iterator :=
  match k with
  | 0 => mret it
  | S k' => it' ← Iterator_incr it; advance k' it'
  end.

(** One call that changes a list: the two pushes, the two pops, and the
    single-element [erase], [insert_before] and [insert_after] at the
    position [std::ranges::next(begin(), k)]. *)
Inductive mutation : Type :=
  | MPushBack (v : T)
  | MPushFront (v : T)
  | MPopFront
  | MPopBack
  | MErase (k : nat)
  | MInsertBefore (k : nat) (v : T)
  | MInsertAfter (k : nat) (v : T).

Definition apply_mutation (l : list_t) (m : mutation) : hM unit :=
  match m with
  | MPushBack v => push_back l v
  | MPushFront v => push_front l v
  | MPopFront => pop_front l
  | MPopBack => pop_back l
  | MErase k => b ← begin l; it ← advance k b; erase l it;; mret tt
  | MInsertBefore k v => b ← begin l; it ← advance k b; insert_before l it v
  | MInsertAfter k v => b ← begin l; it ← advance k b; insert_after l it v
  end.

Fixpoint run_mutations (l : list_t) (ms : list mutation) : hM unit :=
  match ms with
  | [] => mret tt
  | m :: ms' => apply_mutation l m;; run_mutations l ms'
  end.

(** What a computation started in the empty store returns. *)
Definition from_empty_store {A : Type} (m : hM A) : A + fault :=
  match m ∅ with
  | Ok a _ => inl a
  | Fault f => inr f
  end.

(** The store a computation started in the empty store leaves behind. *)
Definition store_from_empty {A : Type} (m : hM A) : heap :=
  match m ∅ with
  | Ok _ σ => σ
  | Fault _ => ∅
  end.

End list_model.

(** The list of the scenarios: [push_back(1); push_back(2); push_front(0)]
    on an empty list of integers. Its sentinel is at address 0 and the nodes
    holding 0, 1 and 2 are at addresses 3, 1 and 2. *)
Definition build_012 : M (gmap loc (option (@Node Z))) list_t :=
  l ← list_default 0%Z;
  push_back l 1%Z;;
  push_back l 2%Z;;
  push_front l 0%Z;;
  mret l.

Definition heap_012 : gmap loc (option (@Node Z)) := store_from_empty build_012.
Definition list_012 : list_t := mkList (Some 0) 0.

(** A second list beside it, holding 7 and 8: its sentinel is at address 4
    and its nodes at addresses 5 and 6. *)
Definition build_two : M (gmap loc (option (@Node Z))) list_t :=
  build_012;;
  b ← list_default 0%Z;
  push_back b 7%Z;;
  push_back b 8%Z;;
  mret b.

Definition heap_two : gmap loc (option (@Node Z)) := store_from_empty build_two.
Definition list_78 : list_t := mkList (Some 4) 0.

(** * Specification vocabulary *)

Section vocabulary.
Context {T : Type}.

Abbreviation heap := (gmap loc (option (@Node T))).
Implicit Types σ : heap.

(** *** The store seen field by field *)

Definition cell (σ : heap) (l : loc) : option (@Node T) := mjoin (σ !! l).
Definition live (σ : heap) (l : loc) : Prop := is_Some (cell σ l).
Definition freed (σ : heap) (l : loc) : Prop := σ !! l = Some None.
Definition nxt (σ : heap) (l : loc) : ptr := cell σ l ≫= m_next.
Definition prv (σ : heap) (l : loc) : ptr := cell σ l ≫= m_prev.
Definition dat (σ : heap) (l : loc) : option T := m_data <$> cell σ l.

(** The stores the primitives produce. *)
Definition upd_next (l : loc) (q : ptr) (σ : heap) : heap :=
  alter (fmap (λ n, mkNode (m_data n) (m_prev n) q)) l σ.
Definition upd_prev (l : loc) (q : ptr) (σ : heap) : heap :=
  alter (fmap (λ n, mkNode (m_data n) q (m_next n))) l σ.
Definition upd_data (l : loc) (v : T) (σ : heap) : heap :=
  alter (fmap (λ n, mkNode v (m_prev n) (m_next n))) l σ.
Definition alloc (v : T) (σ : heap) : heap :=
  let l := fresh (dom σ) in <[l := Some (mkNode v (Some l) (Some l))]> σ.
Definition free (l : loc) (σ : heap) : heap := <[l := None]> σ.

(** The store after [Node::push_back] on [t] (whose predecessor is [p]) with
    node [n], after [Node::push_front] on [p] (whose successor is [t]) with
    node [n], and after [erase] of [x] (between [p] and [s]). *)
Definition splice_back (p n t : loc) (σ : heap) : heap :=
  upd_prev t (Some n) (upd_next p (Some n)
    (upd_next n (Some t) (upd_prev n (Some p) σ))).
Definition splice_front (p n t : loc) (σ : heap) : heap :=
  upd_next p (Some n) (upd_prev t (Some n)
    (upd_prev n (Some p) (upd_next n (Some t) σ))).
Definition unlink (x p s : loc) (σ : heap) : heap :=
  free x (upd_prev s (Some p) (upd_next p (Some s) σ)).

(** What a splice and an unlink do to the fields, whatever the aliasing
    between the nodes involved. *)
Definition spliced (σ σ' : heap) (p n t : loc) : Prop :=
  (∀ l, nxt σ' l = if decide (l = n) then Some t
                   else if decide (l = p) then Some n else nxt σ l) ∧
  (∀ l, prv σ' l = if decide (l = n) then Some p
                   else if decide (l = t) then Some n else prv σ l) ∧
  (∀ l, dat σ' l = dat σ l) ∧
  (∀ l, live σ' l ↔ live σ l) ∧
  (∀ l, freed σ l → freed σ' l).

Definition unlinked (σ σ' : heap) (x p s : loc) : Prop :=
  (∀ l, nxt σ' l = if decide (l = x) then None
                   else if decide (l = p) then Some s else nxt σ l) ∧
  (∀ l, prv σ' l = if decide (l = x) then None
                   else if decide (l = s) then Some p else prv σ l) ∧
  (∀ l, dat σ' l = if decide (l = x) then None else dat σ l) ∧
  (∀ l, live σ' l ↔ l ≠ x ∧ live σ l) ∧
  freed σ' x ∧
  (∀ l, freed σ l → freed σ' l).

(** [a] is immediately followed by [b] somewhere in [L]. *)
Definition adj (L : list loc) (a b : loc) : Prop :=
  ∃ i, L !! i = Some a ∧ L !! S i = Some b.

(** The nodes [h :: ls] form a ring in [σ]: they are pairwise distinct, and
    along [h, ls, h] every node's [m_next] is its successor and every node's
    [m_prev] its predecessor. *)
Definition ring (σ : heap) (h : loc) (ls : list loc) : Prop :=
  NoDup (h :: ls) ∧
  ∀ a b, adj (h :: ls ++ [h]) a b → nxt σ a = Some b ∧ prv σ b = Some a.

(** The ring anchored at [h] holds the values [vs], front to back. *)
Definition repr (σ : heap) (h : loc) (ls : list loc) (vs : list T) : Prop :=
  ring σ h ls ∧ Forall2 (λ l v, dat σ l = Some v) ls vs.

Definition same_fields (σ σ' : heap) (z : loc) : Prop :=
  nxt σ' z = nxt σ z ∧ prv σ' z = prv σ z ∧ dat σ' z = dat σ z.

(** Going from [σ] to [σ'] leaves every node outside [S] as it was: live
    nodes keep their fields and deallocated ones stay deallocated. *)
Definition preserves (σ σ' : heap) (S : list loc) : Prop :=
  ∀ z, z ∉ S →
    (live σ z → live σ' z ∧ same_fields σ σ' z) ∧ (freed σ z → freed σ' z).



(** The list [l] is well formed in [σ] and holds [vs]. *)
Definition holds (σ : heap) (l : list_t) (vs : list T) : Prop :=
  ∃ h ls, m_head l = Some h ∧ repr σ h ls vs.

(** The calls that respect the preconditions of the interface on a list of
    [n] elements: no pop on an empty list, no erase at [end()] or beyond. *)
Definition in_contract (n : nat) (m : @mutation T) : Prop :=
  match m with
  | MPopFront | MPopBack => 0 < n
  | MErase k => k < n
  | _ => True
  end.

(** The list [x] is either well formed on nodes disjoint from [S], or its
    sentinel has been deallocated. *)
Definition apart (σ : heap) (hx : loc) (S : list loc) : Prop :=
  freed σ hx ∨
  ∃ lx (vx : list T), repr σ hx lx vx ∧ ∀ z, z ∈ hx :: lx → z ∉ S.

(** A decision procedure for [repr] on a given store. *)
Definition repr_check `{EqDecision T} (σ : heap) (h : loc) (ls : list loc)
    (vs : list T) : bool :=
  let L := h :: ls ++ [h] in
  bool_decide (NoDup (h :: ls)) &&
  forallb (λ i,
    match L !! i, L !! S i with
    | Some a, Some b => bool_decide (nxt σ a = Some b ∧ prv σ b = Some a)
    | _, _ => true
    end) (seq 0 (length L)) &&
  bool_decide (Forall2 (λ l v, dat σ l = Some v) ls vs).

(** The change of the sequence that each mutation stands for. *)
Definition mutate (m : @mutation T) (vs : list T) : list T :=
  match m with
  | MPushBack v => vs ++ [v]
  | MPushFront v => v :: vs
  | MPopFront => tail vs
  | MPopBack => removelast vs
  | MErase k => delete k vs
  | MInsertBefore k v => take k vs ++ v :: drop k vs
  | MInsertAfter k v =>
      if decide (k < length vs) then take (S k) vs ++ v :: drop (S k) vs
      else v :: vs
  end.

(** The values that [count] rounds of [std::forward<UType>(data)] hand over,
    first round first. *)
Fixpoint forwarded (moved_from : T → T) (c : value_category) (count : nat)
    (data : T) : list T :=
  match count with
  | 0 => []
  | S count' =>
      data :: forwarded moved_from c count' (forward_leaves moved_from c data)
  end.

(** The positions [std::ranges::next(begin(), k)] that lie in
    [[begin(), end()]]. *)
Definition in_range (n : nat) (m : @mutation T) : Prop :=
  match m with
  | MInsertBefore k _ | MInsertAfter k _ => k ≤ n
  | _ => True
  end.

End vocabulary.

(** * Verification *)

(** ** Running monadic code *)

Lemma bind_unfold {S A B} (m : M S A) (k : A → M S B) (s : S) :
  (m ≫= k) s = match m s with Ok a s' => k a s' | Fault f => Fault f end.
Proof. reflexivity. Qed.

Lemma bind_Ok {S A B} (m : M S A) (k : A → M S B) (s s' : S) (a : A) :
  m s = Ok a s' → (m ≫= k) s = k a s'.
Proof. intros H. rewrite bind_unfold, H. reflexivity. Qed.

Lemma bind_Fault {S A B} (m : M S A) (k : A → M S B) (s : S) (f : fault) :
  m s = Fault f → (m ≫= k) s = Fault f.
Proof. intros H. rewrite bind_unfold, H. reflexivity. Qed.

Lemma ret_unfold {S A} (a : A) (s : S) : (mret a : M S A) s = Ok a s.
Proof. reflexivity. Qed.

Section field_view.
Context {T : Type}.

Abbreviation heap := (gmap loc (option (@Node T))).
Implicit Types σ : heap.

Lemma cell_Some σ l n : cell σ l = Some n ↔ σ !! l = Some (Some n).
Proof.
  unfold cell. destruct (σ !! l) as [[m|]|]; simpl; split; congruence.
Qed.

Lemma live_nxt σ l q : nxt σ l = Some q → live σ l.
Proof. unfold nxt, live. destruct (cell σ l); simpl; [eauto | discriminate]. Qed.

Lemma live_prv σ l q : prv σ l = Some q → live σ l.
Proof. unfold prv, live. destruct (cell σ l); simpl; [eauto | discriminate]. Qed.

Lemma live_dat σ l v : dat σ l = Some v → live σ l.
Proof. unfold dat, live. destruct (cell σ l); simpl; [eauto | discriminate]. Qed.

Lemma live_dom σ l : live σ l → l ∈ dom σ.
Proof.
  intros [n Hn]. apply cell_Some in Hn. apply elem_of_dom. eauto.
Qed.

Lemma freed_dom σ l : freed σ l → l ∈ dom σ.
Proof. intros H. apply elem_of_dom. unfold freed in H. eauto. Qed.

Lemma freed_not_live σ l : freed σ l → ¬ live σ l.
Proof.
  unfold freed, live, cell. intros ->. simpl. intros [n Hn]. discriminate.
Qed.

Lemma fresh_not_dom (σ : heap) : fresh (dom σ) ∉ dom σ.
Proof. apply is_fresh. Qed.

Lemma fresh_not_live σ : ¬ live σ (fresh (dom σ)).
Proof. intros H%live_dom. by apply fresh_not_dom in H. Qed.

(** Cells after each kind of update. *)
Lemma cell_upd_next σ l q l' :
  cell (upd_next l q σ) l' =
  if decide (l = l') then (λ n, mkNode (m_data n) (m_prev n) q) <$> cell σ l'
  else cell σ l'.
Proof.
  unfold cell, upd_next. case_decide as E.
  - subst. rewrite lookup_alter_eq. by destruct (σ !! l') as [[?|]|].
  - by rewrite lookup_alter_ne.
Qed.

Lemma cell_upd_prev σ l q l' :
  cell (upd_prev l q σ) l' =
  if decide (l = l') then (λ n, mkNode (m_data n) q (m_next n)) <$> cell σ l'
  else cell σ l'.
Proof.
  unfold cell, upd_prev. case_decide as E.
  - subst. rewrite lookup_alter_eq. by destruct (σ !! l') as [[?|]|].
  - by rewrite lookup_alter_ne.
Qed.

Lemma cell_upd_data σ l v l' :
  cell (upd_data l v σ) l' =
  if decide (l = l') then (λ n, mkNode v (m_prev n) (m_next n)) <$> cell σ l'
  else cell σ l'.
Proof.
  unfold cell, upd_data. case_decide as E.
  - subst. rewrite lookup_alter_eq. by destruct (σ !! l') as [[?|]|].
  - by rewrite lookup_alter_ne.
Qed.

Lemma cell_alloc σ v l' :
  cell (alloc v σ) l' =
  if decide (fresh (dom σ) = l')
  then Some (mkNode v (Some (fresh (dom σ))) (Some (fresh (dom σ))))
  else cell σ l'.
Proof.
  unfold cell, alloc. case_decide as E.
  - subst. by rewrite lookup_insert_eq.
  - by rewrite lookup_insert_ne.
Qed.

Lemma cell_free σ l l' :
  cell (free l σ) l' = if decide (l = l') then None else cell σ l'.
Proof.
  unfold cell, free. case_decide as E.
  - subst. by rewrite lookup_insert_eq.
  - by rewrite lookup_insert_ne.
Qed.

(** Fields after each kind of update. *)
Lemma live_upd_next σ l q l' : live (upd_next l q σ) l' ↔ live σ l'.
Proof.
  unfold live. rewrite cell_upd_next. case_decide; [|done].
  by rewrite fmap_is_Some.
Qed.

Lemma live_upd_prev σ l q l' : live (upd_prev l q σ) l' ↔ live σ l'.
Proof.
  unfold live. rewrite cell_upd_prev. case_decide; [|done].
  by rewrite fmap_is_Some.
Qed.

Lemma live_upd_data σ l v l' : live (upd_data l v σ) l' ↔ live σ l'.
Proof.
  unfold live. rewrite cell_upd_data. case_decide; [|done].
  by rewrite fmap_is_Some.
Qed.

Lemma live_alloc σ v l' : live (alloc v σ) l' ↔ l' = fresh (dom σ) ∨ live σ l'.
Proof.
  unfold live. rewrite cell_alloc. case_decide; subst.
  - split; eauto.
  - split; [eauto | intros [->|]; done].
Qed.

Lemma live_free σ l l' : live (free l σ) l' ↔ l ≠ l' ∧ live σ l'.
Proof.
  unfold live. rewrite cell_free. case_decide; subst.
  - split; [by intros [? ?] | by intros [? _]].
  - split; [done | by intros [_ ?]].
Qed.

Lemma nxt_upd_next_eq σ l q : live σ l → nxt (upd_next l q σ) l = q.
Proof.
  intros [n Hn]. unfold nxt. rewrite cell_upd_next, decide_True, Hn by done.
  done.
Qed.

Lemma nxt_upd_next_ne σ l q l' : l ≠ l' → nxt (upd_next l q σ) l' = nxt σ l'.
Proof. intros. unfold nxt. by rewrite cell_upd_next, decide_False. Qed.

Lemma nxt_upd_prev σ l q l' : nxt (upd_prev l q σ) l' = nxt σ l'.
Proof.
  unfold nxt. rewrite cell_upd_prev. case_decide; [|done].
  by destruct (cell σ l').
Qed.

Lemma nxt_upd_data σ l v l' : nxt (upd_data l v σ) l' = nxt σ l'.
Proof.
  unfold nxt. rewrite cell_upd_data. case_decide; [|done].
  by destruct (cell σ l').
Qed.

Lemma prv_upd_prev_eq σ l q : live σ l → prv (upd_prev l q σ) l = q.
Proof.
  intros [n Hn]. unfold prv. rewrite cell_upd_prev, decide_True, Hn by done.
  done.
Qed.

Lemma prv_upd_prev_ne σ l q l' : l ≠ l' → prv (upd_prev l q σ) l' = prv σ l'.
Proof. intros. unfold prv. by rewrite cell_upd_prev, decide_False. Qed.

Lemma prv_upd_next σ l q l' : prv (upd_next l q σ) l' = prv σ l'.
Proof.
  unfold prv. rewrite cell_upd_next. case_decide; [|done].
  by destruct (cell σ l').
Qed.

Lemma prv_upd_data σ l v l' : prv (upd_data l v σ) l' = prv σ l'.
Proof.
  unfold prv. rewrite cell_upd_data. case_decide; [|done].
  by destruct (cell σ l').
Qed.

Lemma dat_upd_next σ l q l' : dat (upd_next l q σ) l' = dat σ l'.
Proof.
  unfold dat. rewrite cell_upd_next. case_decide; [|done].
  by destruct (cell σ l').
Qed.

Lemma dat_upd_prev σ l q l' : dat (upd_prev l q σ) l' = dat σ l'.
Proof.
  unfold dat. rewrite cell_upd_prev. case_decide; [|done].
  by destruct (cell σ l').
Qed.

Lemma dat_upd_data_eq σ l v : live σ l → dat (upd_data l v σ) l = Some v.
Proof.
  intros [n Hn]. unfold dat. rewrite cell_upd_data, decide_True, Hn by done.
  done.
Qed.

Lemma dat_upd_data_ne σ l v l' : l ≠ l' → dat (upd_data l v σ) l' = dat σ l'.
Proof. intros. unfold dat. by rewrite cell_upd_data, decide_False. Qed.

Lemma nxt_alloc σ v l' :
  nxt (alloc v σ) l' =
  if decide (fresh (dom σ) = l') then Some l' else nxt σ l'.
Proof. unfold nxt. rewrite cell_alloc. case_decide; by subst. Qed.

Lemma prv_alloc σ v l' :
  prv (alloc v σ) l' =
  if decide (fresh (dom σ) = l') then Some l' else prv σ l'.
Proof. unfold prv. rewrite cell_alloc. case_decide; by subst. Qed.

Lemma dat_alloc σ v l' :
  dat (alloc v σ) l' =
  if decide (fresh (dom σ) = l') then Some v else dat σ l'.
Proof. unfold dat. rewrite cell_alloc. case_decide; by subst. Qed.

Lemma nxt_free σ l l' :
  nxt (free l σ) l' = if decide (l = l') then None else nxt σ l'.
Proof. unfold nxt. rewrite cell_free. by case_decide. Qed.

Lemma prv_free σ l l' :
  prv (free l σ) l' = if decide (l = l') then None else prv σ l'.
Proof. unfold prv. rewrite cell_free. by case_decide. Qed.

Lemma dat_free σ l l' :
  dat (free l σ) l' = if decide (l = l') then None else dat σ l'.
Proof. unfold dat. rewrite cell_free. by case_decide. Qed.

(** Tombstones and the set of used addresses. *)
Lemma freed_upd_next σ l q l' : freed (upd_next l q σ) l' ↔ freed σ l'.
Proof.
  unfold freed, upd_next. rewrite lookup_alter. case_decide; [|done].
  subst. destruct (σ !! l') as [[?|]|]; simpl; split; congruence.
Qed.

Lemma freed_upd_prev σ l q l' : freed (upd_prev l q σ) l' ↔ freed σ l'.
Proof.
  unfold freed, upd_prev. rewrite lookup_alter. case_decide; [|done].
  subst. destruct (σ !! l') as [[?|]|]; simpl; split; congruence.
Qed.

Lemma freed_alloc σ v l' : freed σ l' → freed (alloc v σ) l'.
Proof.
  intros H. pose proof (freed_dom _ _ H) as Hd. unfold freed, alloc.
  rewrite lookup_insert_ne; [done|]. intros <-. by apply fresh_not_dom in Hd.
Qed.

Lemma freed_free_eq σ l : freed (free l σ) l.
Proof. unfold freed, free. by rewrite lookup_insert_eq. Qed.

Lemma freed_free σ l l' : freed σ l' → freed (free l σ) l'.
Proof.
  unfold freed, free. intros H. rewrite lookup_insert. by case_decide.
Qed.

Lemma dom_upd_next σ l q : dom (upd_next l q σ) = dom σ.
Proof. unfold upd_next. by rewrite dom_alter_L. Qed.

Lemma dom_upd_prev σ l q : dom (upd_prev l q σ) = dom σ.
Proof. unfold upd_prev. by rewrite dom_alter_L. Qed.

Lemma dom_upd_data σ l v : dom (upd_data l v σ) = dom σ.
Proof. unfold upd_data. by rewrite dom_alter_L. Qed.

(** *** The primitives in terms of the field view *)

Lemma get_next_live σ l : live σ l → get_next (Some l) σ = Ok (nxt σ l) σ.
Proof.
  intros [n Hn]. unfold nxt. rewrite Hn. apply cell_Some in Hn.
  unfold get_next, load. rewrite bind_unfold, Hn. reflexivity.
Qed.

Lemma get_prev_live σ l : live σ l → get_prev (Some l) σ = Ok (prv σ l) σ.
Proof.
  intros [n Hn]. unfold prv. rewrite Hn. apply cell_Some in Hn.
  unfold get_prev, load. rewrite bind_unfold, Hn. reflexivity.
Qed.

Lemma get_data_live σ l v : dat σ l = Some v → get_data (Some l) σ = Ok v σ.
Proof.
  unfold dat. destruct (cell σ l) as [n|] eqn:Hn; [|discriminate].
  intros [= <-]. apply cell_Some in Hn.
  unfold get_data, load. rewrite bind_unfold, Hn. reflexivity.
Qed.

Lemma load_dead σ l : ¬ live σ l → load (Some l) σ = Fault Undefined.
Proof.
  unfold live, cell, load. destruct (σ !! l) as [[n|]|]; simpl; try done.
  intros []. eauto.
Qed.

Lemma load_live σ l : live σ l → ∃ n, load (Some l) σ = Ok n σ.
Proof.
  intros [n Hn%cell_Some]. exists n. unfold load. by rewrite Hn.
Qed.

Lemma get_next_dead σ l : ¬ live σ l → get_next (Some l) σ = Fault Undefined.
Proof. intros. unfold get_next. by rewrite bind_unfold, load_dead. Qed.

Lemma get_prev_dead σ l : ¬ live σ l → get_prev (Some l) σ = Fault Undefined.
Proof. intros. unfold get_prev. by rewrite bind_unfold, load_dead. Qed.

Lemma alter_as_insert (σ : heap) l f c :
  σ !! l = Some c → <[l := f c]> σ = alter f l σ.
Proof.
  intros H. apply map_eq. intros i. rewrite lookup_insert, lookup_alter.
  case_decide; subst; [by rewrite H | done].
Qed.

Lemma set_next_live σ l q :
  live σ l → set_next (Some l) q σ = Ok tt (upd_next l q σ).
Proof.
  intros [n Hn%cell_Some]. unfold set_next, load, store, upd_next.
  rewrite bind_unfold, Hn, Hn. f_equal.
  by rewrite <- (alter_as_insert σ l _ (Some n)).
Qed.

Lemma set_prev_live σ l q :
  live σ l → set_prev (Some l) q σ = Ok tt (upd_prev l q σ).
Proof.
  intros [n Hn%cell_Some]. unfold set_prev, load, store, upd_prev.
  rewrite bind_unfold, Hn, Hn. f_equal.
  by rewrite <- (alter_as_insert σ l _ (Some n)).
Qed.

Lemma set_data_live σ l v :
  live σ l → set_data (Some l) v σ = Ok tt (upd_data l v σ).
Proof.
  intros [n Hn%cell_Some]. unfold set_data, load, store, upd_data.
  rewrite bind_unfold, Hn, Hn. f_equal.
  by rewrite <- (alter_as_insert σ l _ (Some n)).
Qed.

Lemma create_node_alloc σ (v : T) :
  __M_create_node v σ = Ok (Some (fresh (dom σ))) (alloc v σ).
Proof. reflexivity. Qed.

Lemma destroy_live σ l :
  live σ l → destroy_deallocate (Some l) σ = Ok tt (free l σ).
Proof.
  intros [n Hn%cell_Some]. unfold destroy_deallocate. by rewrite Hn.
Qed.

Lemma destroy_dead σ l :
  ¬ live σ l → destroy_deallocate (Some l) σ = Fault Undefined.
Proof.
  unfold live, cell, destroy_deallocate.
  destruct (σ !! l) as [[n|]|]; simpl; try done. intros []. eauto.
Qed.

End field_view.

(** ** The linking primitives as store transformers *)

Ltac live_tac :=
  repeat first
    [ rewrite live_upd_next | rewrite live_upd_prev | rewrite live_upd_data ];
  assumption.

Ltac fields :=
  repeat first
    [ rewrite nxt_upd_prev | rewrite nxt_upd_data
    | rewrite prv_upd_next | rewrite prv_upd_data
    | rewrite dat_upd_next | rewrite dat_upd_prev
    | rewrite nxt_upd_next_eq by live_tac
    | rewrite prv_upd_prev_eq by live_tac
    | rewrite nxt_upd_next_ne by congruence
    | rewrite prv_upd_prev_ne by congruence ].

Ltac mstep :=
  rewrite bind_unfold;
  first
    [ rewrite get_next_live by live_tac
    | rewrite get_prev_live by live_tac
    | rewrite set_next_live by live_tac
    | rewrite set_prev_live by live_tac
    | rewrite set_data_live by live_tac
    | rewrite destroy_live by live_tac
    | rewrite create_node_alloc ];
  cbv beta iota; fields.

Section exec.
Context {T : Type}.

Abbreviation heap := (gmap loc (option (@Node T))).
Implicit Types σ : heap.

Lemma erase_exec (σ : heap) l x p s :
  live σ x → prv σ x = Some p → nxt σ x = Some s → live σ p → live σ s →
  erase l (mkIter (Some x)) σ = Ok (mkIter (Some s)) (unlink x p s σ).
Proof.
  intros Hx Hp Hs Lp Ls. unfold erase, unlink. cbn [m_cursor].
  assert (nxt (upd_next p (Some s) σ) x = Some s) as Hs'.
  { destruct (decide (p = x)) as [->|]; fields; done. }
  mstep. rewrite Hp. mstep. rewrite Hs. mstep.
  mstep. rewrite Hs'. mstep. rewrite Hp. mstep.
  mstep. rewrite Hs'.
  mstep. reflexivity.
Qed.

Lemma Node_push_back_exec (σ : heap) t n p :
  live σ t → prv σ t = Some p → live σ p → live σ n → n ≠ t →
  Node_push_back (Some t) (Some n) σ = Ok tt (splice_back p n t σ).
Proof.
  intros Lt Hp Lp Ln Hnt. unfold Node_push_back, splice_back.
  mstep. rewrite Hp. mstep. mstep. mstep. rewrite Hp. mstep.
  rewrite set_prev_live by live_tac. reflexivity.
Qed.

Lemma Node_push_front_exec (σ : heap) p n t :
  live σ p → nxt σ p = Some t → live σ t → live σ n → n ≠ p →
  Node_push_front (Some p) (Some n) σ = Ok tt (splice_front p n t σ).
Proof.
  intros Lp Ht Lt Ln Hnp. unfold Node_push_front, splice_front.
  mstep. rewrite Ht. mstep. mstep. mstep. rewrite Ht. mstep.
  rewrite set_next_live by live_tac. reflexivity.
Qed.

Lemma splice_back_spliced (σ : heap) p n t :
  live σ p → live σ t → live σ n → n ≠ p → n ≠ t →
  spliced σ (splice_back p n t σ) p n t.
Proof.
  intros Lp Lt Ln Hnp Hnt. unfold splice_back.
  split; [|split; [|split; [|split]]]; intros l.
  - repeat case_decide; subst; fields; done.
  - repeat case_decide; subst; fields; done.
  - by fields.
  - by rewrite live_upd_prev, !live_upd_next, live_upd_prev.
  - by rewrite freed_upd_prev, !freed_upd_next, freed_upd_prev.
Qed.

Lemma splice_front_spliced (σ : heap) p n t :
  live σ p → live σ t → live σ n → n ≠ p → n ≠ t →
  spliced σ (splice_front p n t σ) p n t.
Proof.
  intros Lp Lt Ln Hnp Hnt. unfold splice_front.
  split; [|split; [|split; [|split]]]; intros l.
  - repeat case_decide; subst; fields; done.
  - repeat case_decide; subst; fields; done.
  - by fields.
  - by rewrite live_upd_next, !live_upd_prev, live_upd_next.
  - by rewrite freed_upd_next, !freed_upd_prev, freed_upd_next.
Qed.

Lemma unlink_unlinked (σ : heap) x p s :
  live σ p → live σ s → unlinked σ (unlink x p s σ) x p s.
Proof.
  intros Lp Ls. unfold unlink.
  split; [|split; [|split; [|split; [|split]]]].
  - intros l. rewrite nxt_free. repeat case_decide; subst; fields; done.
  - intros l. rewrite prv_free. repeat case_decide; subst; fields; done.
  - intros l. rewrite dat_free. repeat case_decide; subst; fields; done.
  - intros l. rewrite live_free, live_upd_prev, live_upd_next.
    split; intros [? ?]; (split; [congruence | done]).
  - apply freed_free_eq.
  - intros l H. apply freed_free. by rewrite freed_upd_prev, freed_upd_next.
Qed.

End exec.

(** ** Rings *)

Section adjacency.

Lemma adj_elem L a b : adj L a b → a ∈ L ∧ b ∈ L.
Proof.
  intros (i & Ha & Hb). split; apply list_elem_of_lookup; eauto.
Qed.

Lemma adj_app X Y a b :
  adj (X ++ Y) a b ↔
  adj X a b ∨ (last X = Some a ∧ head Y = Some b) ∨ adj Y a b.
Proof.
  split.
  - intros (i & Ha & Hb).
    destruct (decide (S i < length X)) as [Hlt|Hge].
    + left. exists i. rewrite lookup_app_l in Ha, Hb by lia. done.
    + destruct (decide (S i = length X)) as [Heq|Hne].
      * right; left. rewrite lookup_app_l in Ha by lia.
        rewrite lookup_app_r in Hb by lia.
        rewrite last_lookup, head_lookup.
        replace (pred (length X)) with i by lia.
        replace (S i - length X) with 0 in Hb by lia. done.
      * right; right. exists (i - length X).
        rewrite lookup_app_r in Ha, Hb by lia.
        replace (S (i - length X)) with (S i - length X) by lia. done.
  - intros [(i & Ha & Hb) | [[Ha Hb] | (i & Ha & Hb)]].
    + exists i. pose proof (lookup_lt_Some _ _ _ Hb).
      rewrite !lookup_app_l by lia. done.
    + rewrite last_lookup in Ha. rewrite head_lookup in Hb.
      pose proof (lookup_lt_Some _ _ _ Ha) as Hlen.
      exists (pred (length X)). rewrite lookup_app_l by lia.
      rewrite lookup_app_r by lia.
      replace (S (pred (length X)) - length X) with 0 by lia. done.
    + exists (length X + i). rewrite !lookup_app_r by lia.
      replace (length X + i - length X) with i by lia.
      replace (S (length X + i) - length X) with (S i) by lia. done.
Qed.

Lemma adj_cons x Y a b :
  adj (x :: Y) a b ↔ (a = x ∧ head Y = Some b) ∨ adj Y a b.
Proof.
  split.
  - intros ([|i] & Ha & Hb); simpl in *.
    + left. rewrite head_lookup. split; congruence.
    + right. by exists i.
  - intros [[-> Hb] | (i & Ha & Hb)].
    + exists 0. rewrite head_lookup in Hb. done.
    + by exists (S i).
Qed.

Lemma adj_nil a b : ¬ adj [] a b.
Proof. by intros (i & Ha & _). Qed.

Lemma adj_snoc_l X z a b : adj (X ++ [z]) a b → a ∈ X.
Proof.
  intros (i & Ha & Hb). pose proof (lookup_lt_Some _ _ _ Hb) as Hlen.
  rewrite length_app in Hlen. simpl in Hlen.
  rewrite lookup_app_l in Ha by lia. apply list_elem_of_lookup. eauto.
Qed.

Lemma adj_cons_r z X a b : adj (z :: X) a b → b ∈ X.
Proof.
  intros (i & Ha & Hb). simpl in Hb. apply list_elem_of_lookup. eauto.
Qed.

Lemma adj_not_last X a b : NoDup X → adj X a b → last X ≠ Some a.
Proof.
  intros Hnd (i & Ha & Hb) Hl. rewrite last_lookup in Hl.
  pose proof (lookup_lt_Some _ _ _ Hb).
  pose proof (NoDup_lookup _ _ _ _ Hnd Ha Hl). lia.
Qed.

Lemma adj_not_head X a b : NoDup X → adj X a b → head X ≠ Some b.
Proof.
  intros Hnd (i & Ha & Hb) Hl. rewrite head_lookup in Hl.
  pose proof (NoDup_lookup _ _ _ _ Hnd Hb Hl). lia.
Qed.

Lemma head_elem (Y : list loc) t : head Y = Some t → t ∈ Y.
Proof. destruct Y; simpl; [done|]. intros [= ->]. apply list_elem_of_here. Qed.

Lemma last_elem (X : list loc) p : last X = Some p → p ∈ X.
Proof.
  rewrite last_lookup. intros H. apply list_elem_of_lookup. eauto.
Qed.

End adjacency.

Section ring.
Context {T : Type}.

Abbreviation heap := (gmap loc (option (@Node T))).
Implicit Types σ : heap.

Lemma cycle_split h (l1 l2 : list loc) :
  h :: (l1 ++ l2) ++ [h] = (h :: l1) ++ (l2 ++ [h]).
Proof. by rewrite <- app_assoc. Qed.

Lemma last_cons_Some h (l1 : list loc) : ∃ p, last (h :: l1) = Some p.
Proof.
  destruct (last (h :: l1)) eqn:E; [eauto|].
  by apply last_None in E.
Qed.

Lemma head_snoc_Some (l2 : list loc) h : ∃ t, head (l2 ++ [h]) = Some t.
Proof. destruct l2; simpl; eauto. Qed.

Lemma ring_live σ h ls x : ring σ h ls → x ∈ h :: ls → live σ x.
Proof.
  intros [_ Hadj] Hx. apply list_elem_of_lookup in Hx as [i Hi].
  pose proof (lookup_lt_Some _ _ _ Hi) as Hlen. simpl in Hlen.
  destruct (lookup_lt_is_Some_2 (h :: ls ++ [h]) (S i)) as [b Hb].
  { simpl. rewrite length_app. simpl. lia. }
  destruct (Hadj x b) as [Hn _]; [|by eapply live_nxt].
  exists i. split; [|done].
  change (h :: ls ++ [h]) with ((h :: ls) ++ [h]).
  by rewrite lookup_app_l.
Qed.

Lemma ring_at σ h l1 x l2 p s :
  ring σ h (l1 ++ x :: l2) →
  last (h :: l1) = Some p → head (l2 ++ [h]) = Some s →
  prv σ x = Some p ∧ nxt σ x = Some s ∧ nxt σ p = Some x ∧ prv σ s = Some x.
Proof.
  intros [_ Hadj] Hp Hs.
  assert (adj (h :: (l1 ++ x :: l2) ++ [h]) p x) as H1.
  { rewrite cycle_split. apply adj_app. right; left. done. }
  assert (adj (h :: (l1 ++ x :: l2) ++ [h]) x s) as H2.
  { rewrite cycle_split. apply adj_app. right; right.
    simpl. apply adj_cons. by left. }
  apply Hadj in H1, H2. naive_solver.
Qed.

Lemma ring_between σ h l1 l2 p t :
  ring σ h (l1 ++ l2) →
  last (h :: l1) = Some p → head (l2 ++ [h]) = Some t →
  nxt σ p = Some t ∧ prv σ t = Some p.
Proof.
  intros [_ Hadj] Hp Ht. apply Hadj. rewrite cycle_split.
  apply adj_app. right; left. done.
Qed.

Lemma Forall2_impl_elem {A B} (P Q : A → B → Prop) (l : list A) (k : list B) :
  Forall2 P l k → (∀ x y, x ∈ l → P x y → Q x y) → Forall2 Q l k.
Proof.
  induction 1 as [|x y l k Hxy _ IH]; intros HPQ; constructor.
  - apply HPQ; [apply list_elem_of_here | done].
  - apply IH. intros x' y' Hx'. apply HPQ. by apply list_elem_of_further.
Qed.

Lemma ring_frame σ σ' h ls :
  (∀ l, l ∈ h :: ls → nxt σ' l = nxt σ l ∧ prv σ' l = prv σ l) →
  ring σ h ls → ring σ' h ls.
Proof.
  intros Hfr [Hnd Hadj]. split; [done|]. intros a b Hab.
  destruct (Hadj a b Hab) as [Hn Hp].
  assert (a ∈ h :: ls ∧ b ∈ h :: ls) as [Ha Hb].
  { apply adj_elem in Hab as [Ha Hb].
    rewrite elem_of_cons, elem_of_app, list_elem_of_singleton in Ha, Hb.
    rewrite !elem_of_cons. naive_solver. }
  destruct (Hfr a Ha) as [-> _]. destruct (Hfr b Hb) as [_ ->]. done.
Qed.

Lemma repr_frame σ σ' h ls vs :
  (∀ l, l ∈ h :: ls →
        nxt σ' l = nxt σ l ∧ prv σ' l = prv σ l ∧ dat σ' l = dat σ l) →
  repr σ h ls vs → repr σ' h ls vs.
Proof.
  intros Hfr [Hr Hd]. split.
  - eapply ring_frame; [|done]. intros l Hl. naive_solver.
  - eapply Forall2_impl_elem; [done|]. intros l v Hl Hv.
    destruct (Hfr l) as (_ & _ & ->); [|done]. by apply list_elem_of_further.
Qed.

Lemma ring_nodup_facts h (l1 l2 : list loc) :
  NoDup (h :: l1 ++ l2) →
  NoDup (h :: l1) ∧ NoDup (l2 ++ [h]) ∧
  (∀ z, z ∈ l1 → z ∉ l2 ++ [h]) ∧ (∀ z, z ∈ h :: l1 → z ∉ l2).
Proof.
  rewrite !NoDup_cons, !NoDup_app, elem_of_app.
  intros (Hh & N1 & N12 & N2). repeat split; try done.
  - tauto.
  - intros z Hz. rewrite list_elem_of_singleton. intros ->. tauto.
  - apply NoDup_singleton.
  - intros z Hz. rewrite elem_of_app, list_elem_of_singleton.
    intros [Hz2 | ->]; [by eapply N12 | tauto].
  - intros z. rewrite elem_of_cons. intros [-> | Hz]; [tauto | by apply N12].
Qed.

Lemma nodup_middle h (l1 l2 : list loc) x :
  NoDup (h :: l1 ++ x :: l2) ↔ NoDup (h :: l1 ++ l2) ∧ x ∉ h :: l1 ++ l2.
Proof.
  assert (h :: l1 ++ x :: l2 ≡ₚ x :: h :: l1 ++ l2) as ->.
  { rewrite (Permutation_swap h x). constructor.
    symmetry. apply Permutation_middle. }
  rewrite (NoDup_cons x). tauto.
Qed.

Lemma ring_splice σ σ' h l1 l2 p n t :
  ring σ h (l1 ++ l2) →
  last (h :: l1) = Some p → head (l2 ++ [h]) = Some t →
  n ∉ h :: l1 ++ l2 →
  spliced σ σ' p n t →
  ring σ' h (l1 ++ n :: l2).
Proof.
  intros [Hnd Hadj] Hp Ht Hn (Hnx & Hpv & _).
  split; [by apply nodup_middle|].
  destruct (ring_nodup_facts _ _ _ Hnd) as (NX & NY & D1 & D2).
  assert (∀ z, z ∈ h :: l1 → z ≠ n) as FX.
  { intros z Hz ->. apply Hn. rewrite app_comm_cons, elem_of_app. by left. }
  assert (∀ z, z ∈ l2 ++ [h] → z ≠ n) as FY.
  { intros z Hz ->. apply Hn.
    rewrite elem_of_app, list_elem_of_singleton in Hz.
    rewrite elem_of_cons, elem_of_app. naive_solver. }
  pose proof (last_elem _ _ Hp) as Hp_in.
  pose proof (head_elem _ _ Ht) as Ht_in.
  rewrite cycle_split in Hadj.
  intros a b Hab.
  replace (h :: (l1 ++ n :: l2) ++ [h])
    with ((h :: l1) ++ n :: (l2 ++ [h])) in Hab
    by (by simpl; rewrite <- app_assoc).
  rewrite Hnx, Hpv.
  apply adj_app in Hab as [H | [[Ha Hb] | H]].
  - destruct (Hadj a b) as [Hn1 Hp1]; [apply adj_app; by left|].
    pose proof (adj_elem _ _ _ H) as [Ha Hb].
    rewrite (decide_False (P := a = n)) by by apply FX.
    rewrite (decide_False (P := a = p)).
    2:{ intros ->. exact (adj_not_last _ _ _ NX H Hp). }
    rewrite (decide_False (P := b = n)) by by apply FX.
    rewrite (decide_False (P := b = t)); [done|].
    intros ->. apply adj_cons_r in H. exact (D1 _ H Ht_in).
  - simpl in Hb. assert (a = p) as -> by congruence.
    assert (b = n) as -> by congruence.
    rewrite (decide_False (P := p = n)) by by apply FX.
    by rewrite !decide_True.
  - apply adj_cons in H as [[-> Hb] | H].
    + assert (b = t) as -> by congruence.
      rewrite (decide_False (P := t = n)) by by apply FY.
      by rewrite !decide_True.
    + destruct (Hadj a b) as [Hn1 Hp1]; [apply adj_app; by right; right|].
      pose proof (adj_elem _ _ _ H) as [Ha Hb].
      rewrite (decide_False (P := a = n)) by by apply FY.
      rewrite (decide_False (P := a = p)).
      2:{ intros ->. apply adj_snoc_l in H. exact (D2 _ Hp_in H). }
      rewrite (decide_False (P := b = n)) by by apply FY.
      rewrite (decide_False (P := b = t)); [done|].
      intros ->. exact (adj_not_head _ _ _ NY H Ht).
Qed.

Lemma ring_unlink σ σ' h l1 x l2 p s :
  ring σ h (l1 ++ x :: l2) →
  last (h :: l1) = Some p → head (l2 ++ [h]) = Some s →
  unlinked σ σ' x p s →
  ring σ' h (l1 ++ l2).
Proof.
  intros [Hnd Hadj] Hp Hs (Hnx & Hpv & _).
  apply nodup_middle in Hnd as [Hnd Hx].
  split; [done|].
  destruct (ring_nodup_facts _ _ _ Hnd) as (NX & NY & D1 & D2).
  assert (∀ z, z ∈ h :: l1 → z ≠ x) as FX.
  { intros z Hz ->. apply Hx. rewrite app_comm_cons, elem_of_app. by left. }
  assert (∀ z, z ∈ l2 ++ [h] → z ≠ x) as FY.
  { intros z Hz ->. apply Hx.
    rewrite elem_of_app, list_elem_of_singleton in Hz.
    rewrite elem_of_cons, elem_of_app. naive_solver. }
  pose proof (last_elem _ _ Hp) as Hp_in.
  pose proof (head_elem _ _ Hs) as Hs_in.
  replace (h :: (l1 ++ x :: l2) ++ [h])
    with ((h :: l1) ++ x :: (l2 ++ [h])) in Hadj
    by (by simpl; rewrite <- app_assoc).
  intros a b Hab. rewrite cycle_split in Hab.
  rewrite Hnx, Hpv.
  apply adj_app in Hab as [H | [[Ha Hb] | H]].
  - destruct (Hadj a b) as [Hn1 Hp1]; [apply adj_app; by left|].
    pose proof (adj_elem _ _ _ H) as [Ha Hb].
    rewrite (decide_False (P := a = x)) by by apply FX.
    rewrite (decide_False (P := a = p)).
    2:{ intros ->. exact (adj_not_last _ _ _ NX H Hp). }
    rewrite (decide_False (P := b = x)) by by apply FX.
    rewrite (decide_False (P := b = s)); [done|].
    intros ->. apply adj_cons_r in H. exact (D1 _ H Hs_in).
  - assert (a = p) as -> by congruence.
    assert (b = s) as -> by congruence.
    rewrite (decide_False (P := p = x)) by by apply FX.
    rewrite (decide_False (P := s = x)) by by apply FY.
    by rewrite !decide_True.
  - destruct (Hadj a b) as [Hn1 Hp1].
    { apply adj_app. right; right. apply adj_cons. by right. }
    pose proof (adj_elem _ _ _ H) as [Ha Hb].
    rewrite (decide_False (P := a = x)) by by apply FY.
    rewrite (decide_False (P := a = p)).
    2:{ intros ->. apply adj_snoc_l in H. exact (D2 _ Hp_in H). }
    rewrite (decide_False (P := b = x)) by by apply FY.
    rewrite (decide_False (P := b = s)); [done|].
    intros ->. exact (adj_not_head _ _ _ NY H Hs).
Qed.

End ring.

(** ** Frames and neighbours *)

Section frames.
Context {T : Type}.

Abbreviation heap := (gmap loc (option (@Node T))).
Implicit Types σ : heap.

Lemma preserves_refl σ S : preserves σ σ S.
Proof. intros z _. by repeat split. Qed.

Lemma preserves_trans σ1 σ2 σ3 S :
  preserves σ1 σ2 S → preserves σ2 σ3 S → preserves σ1 σ3 S.
Proof.
  intros H12 H23 z Hz. destruct (H12 z Hz) as [L12 F12].
  destruct (H23 z Hz) as [L23 F23]. split.
  - intros L1. destruct (L12 L1) as (L2 & n12 & p12 & d12).
    destruct (L23 L2) as (L3 & n23 & p23 & d23).
    split; [done|]. repeat split; congruence.
  - auto.
Qed.

Lemma preserves_weaken σ σ' S S' :
  (∀ z, z ∈ S → z ∈ S') → preserves σ σ' S → preserves σ σ' S'.
Proof. intros Hsub H z Hz. apply H. intros Hin. by apply Hz, Hsub. Qed.

Lemma preserves_alloc σ (v : T) S : preserves σ (alloc v σ) S.
Proof.
  intros z _. split.
  - intros Lz. assert (fresh (dom σ) ≠ z) as Hne.
    { intros <-. by apply fresh_not_live in Lz. }
    split; [apply live_alloc; by right|].
    unfold same_fields. rewrite nxt_alloc, prv_alloc, dat_alloc.
    by rewrite !decide_False.
  - apply freed_alloc.
Qed.

Lemma preserves_spliced σ σ' p n t S :
  spliced σ σ' p n t → p ∈ S → n ∈ S → t ∈ S → preserves σ σ' S.
Proof.
  intros (Hnx & Hpv & Hd & Hl & Hf) Hp Hn Ht z Hz. split; [|apply Hf].
  intros Lz. split; [by apply Hl|].
  unfold same_fields. rewrite Hnx, Hpv, Hd.
  rewrite !decide_False; [done | congruence..].
Qed.

Lemma preserves_unlinked σ σ' x p s S :
  unlinked σ σ' x p s → x ∈ S → p ∈ S → s ∈ S → preserves σ σ' S.
Proof.
  intros (Hnx & Hpv & Hd & Hl & _ & Hf) Hx Hp Hs z Hz. split; [|apply Hf].
  intros Lz. assert (z ≠ x) by congruence. split; [by apply Hl|].
  unfold same_fields. rewrite Hnx, Hpv, Hd.
  rewrite !decide_False; [done | congruence..].
Qed.

Lemma preserves_repr σ σ' S h ls (vs : list T) :
  preserves σ σ' S → (∀ z, z ∈ h :: ls → z ∉ S) →
  repr σ h ls vs → repr σ' h ls vs.
Proof.
  intros Hpr Hdisj Hr. eapply repr_frame; [|done].
  intros z Hz. destruct (Hpr z (Hdisj z Hz)) as [Hl _].
  destruct Hl as [_ Hsf]; [|done]. by eapply ring_live; [apply Hr|].
Qed.

Lemma ring_head σ h ls :
  ring σ h ls →
  ∃ p s, last (h :: ls) = Some p ∧ head (ls ++ [h]) = Some s ∧
         prv σ h = Some p ∧ nxt σ h = Some s ∧
         nxt σ p = Some h ∧ prv σ s = Some h.
Proof.
  intros [_ Hadj].
  destruct (last_cons_Some h ls) as [p Hp].
  destruct (head_snoc_Some ls h) as [s Hs].
  exists p, s.
  assert (adj (h :: ls ++ [h]) p h) as H1.
  { change (h :: ls ++ [h]) with ((h :: ls) ++ [h]).
    apply adj_app. right; left. done. }
  assert (adj (h :: ls ++ [h]) h s) as H2.
  { apply adj_cons. by left. }
  apply Hadj in H1, H2. naive_solver.
Qed.

Lemma in_cons_app h (l1 l2 : list loc) z :
  z ∈ h :: l1 ∨ z ∈ l2 ++ [h] → z ∈ h :: l1 ++ l2.
Proof.
  rewrite !elem_of_cons, !elem_of_app, list_elem_of_singleton. tauto.
Qed.

(** Every node of a ring has its two neighbours in the ring, and each
    neighbour points back at it. *)
Lemma ring_neighbours σ h ls x :
  ring σ h ls → x ∈ h :: ls →
  ∃ p s, prv σ x = Some p ∧ nxt σ x = Some s ∧
         p ∈ h :: ls ∧ s ∈ h :: ls ∧
         nxt σ p = Some x ∧ prv σ s = Some x.
Proof.
  intros Hr Hx. apply elem_of_cons in Hx as [-> | Hx].
  - destruct (ring_head _ _ _ Hr) as (p & s & Hp & Hs & ? & ? & ? & ?).
    exists p, s. repeat split; try done.
    + by apply last_elem.
    + apply head_elem in Hs. rewrite <- (app_nil_l ls).
      apply in_cons_app. by right.
  - apply list_elem_of_split in Hx as (l1 & l2 & ->).
    destruct (last_cons_Some h l1) as [p Hp].
    destruct (head_snoc_Some l2 h) as [s Hs].
    destruct (ring_at _ _ _ _ _ _ _ Hr Hp Hs) as (? & ? & ? & ?).
    exists p, s. repeat split; try done.
    + apply last_elem in Hp. apply in_cons_app. by left.
    + apply head_elem in Hs.
      assert (s ∈ h :: l1 ++ l2) as Hin by (apply in_cons_app; by right).
      rewrite elem_of_cons, elem_of_app in Hin.
      rewrite elem_of_cons, elem_of_app, elem_of_cons. tauto.
Qed.

End frames.

(** ** Specifications of the list operations *)

Section operations.
Context {T : Type}.
Variable T0 : T.

Abbreviation heap := (gmap loc (option (@Node T))).
Implicit Types σ : heap.

Lemma ring_singleton σ h :
  nxt σ h = Some h → prv σ h = Some h → ring σ h [].
Proof.
  intros Hn Hp. split; [apply NoDup_singleton|].
  intros a b Hab. simpl in Hab.
  apply adj_cons in Hab as [[-> Hb] | Hab].
  - simpl in Hb. by injection Hb as <-.
  - apply adj_cons in Hab as [[-> Hb] | Hab]; [done | by apply adj_nil in Hab].
Qed.

Lemma ring_nil_inv σ h : ring σ h [] → nxt σ h = Some h ∧ prv σ h = Some h.
Proof.
  intros Hr. destruct (ring_head _ _ _ Hr) as (p & s & Hp & Hs & ? & ? & _).
  simpl in Hp, Hs. by simplify_eq.
Qed.

(** [list()] *)
Lemma list_default_spec σ :
  list_default T0 σ = Ok (mkList (Some (fresh (dom σ))) 0) (alloc T0 σ) ∧
  repr (alloc T0 σ) (fresh (dom σ)) [] [].
Proof.
  split; [reflexivity|]. split; [|constructor].
  apply ring_singleton.
  - by rewrite nxt_alloc, decide_True.
  - by rewrite prv_alloc, decide_True.
Qed.

Lemma fresh_not_in_ring σ h ls : ring σ h ls → fresh (dom σ) ∉ h :: ls.
Proof.
  intros Hr Hin. eapply fresh_not_live, ring_live; [apply Hr | done].
Qed.

Lemma preserves_drop_fresh σ σ' S :
  preserves σ σ' (fresh (dom σ) :: S) → preserves σ σ' S.
Proof.
  intros H z Hz. destruct (decide (z = fresh (dom σ))) as [-> | Hne].
  - split.
    + intros L. by apply fresh_not_live in L.
    + intros F%freed_dom. by apply fresh_not_dom in F.
  - apply H. rewrite elem_of_cons. tauto.
Qed.

Lemma repr_alloc σ h ls (vs : list T) v :
  repr σ h ls vs → repr (alloc v σ) h ls vs.
Proof.
  apply (preserves_repr _ _ []); [apply preserves_alloc|].
  intros z _. apply not_elem_of_nil.
Qed.

Lemma repr_splice σ σ' h l1 l2 (vs1 vs2 : list T) v p n t :
  repr σ h (l1 ++ l2) (vs1 ++ vs2) → length l1 = length vs1 →
  last (h :: l1) = Some p → head (l2 ++ [h]) = Some t →
  n ∉ h :: l1 ++ l2 → dat σ n = Some v →
  spliced σ σ' p n t →
  repr σ' h (l1 ++ n :: l2) (vs1 ++ v :: vs2).
Proof.
  intros [Hr Hd] Hlen Hp Ht Hn Hv Hsp. split.
  - by eapply ring_splice.
  - destruct Hsp as (_ & _ & Hdat & _).
    apply Forall2_app_inv in Hd as [Hd1 Hd2]; [|done].
    apply Forall2_app; [|constructor].
    + eapply Forall2_impl; [done|]. intros. by rewrite Hdat.
    + by rewrite Hdat.
    + eapply Forall2_impl; [done|]. intros. by rewrite Hdat.
Qed.

Lemma repr_unlink σ σ' h l1 x l2 (vs1 vs2 : list T) v p s :
  repr σ h (l1 ++ x :: l2) (vs1 ++ v :: vs2) → length l1 = length vs1 →
  last (h :: l1) = Some p → head (l2 ++ [h]) = Some s →
  unlinked σ σ' x p s →
  repr σ' h (l1 ++ l2) (vs1 ++ vs2).
Proof.
  intros [Hr Hd] Hlen Hp Hs Hun. split.
  - by eapply ring_unlink.
  - destruct Hr as [Hnd _]. apply nodup_middle in Hnd as [_ Hx].
    destruct Hun as (_ & _ & Hdat & _).
    apply Forall2_app_inv in Hd as [Hd1 Hd2]; [|done].
    apply Forall2_cons in Hd2 as [_ Hd2].
    apply Forall2_app.
    + eapply Forall2_impl_elem; [done|]. intros z w Hz Hw.
      rewrite Hdat, decide_False; [done|]. intros ->. apply Hx.
      rewrite elem_of_cons, elem_of_app. tauto.
    + eapply Forall2_impl_elem; [done|]. intros z w Hz Hw.
      rewrite Hdat, decide_False; [done|]. intros ->. apply Hx.
      rewrite elem_of_cons, elem_of_app. tauto.
Qed.

(** [insert_before(position, data)] at the node [t] that follows [l1]. *)
Lemma insert_before_spec σ l h l1 l2 (vs1 vs2 : list T) v t :
  repr σ h (l1 ++ l2) (vs1 ++ vs2) → length l1 = length vs1 →
  head (l2 ++ [h]) = Some t →
  ∃ σ', insert_before l (mkIter (Some t)) v σ = Ok tt σ' ∧
        repr σ' h (l1 ++ fresh (dom σ) :: l2) (vs1 ++ v :: vs2) ∧
        preserves σ σ' (h :: l1 ++ l2).
Proof.
  intros Hrep Hlen Ht. pose proof Hrep as [Hr _].
  destruct (last_cons_Some h l1) as [p Hp].
  destruct (ring_between _ _ _ _ _ _ Hr Hp Ht) as [Hpt Htp].
  pose proof (fresh_not_in_ring _ _ _ Hr) as Hfresh.
  set (n := fresh (dom σ)) in *. set (σ1 := alloc v σ).
  assert (p ∈ h :: l1 ++ l2) as Hp_in.
  { apply in_cons_app. left. by apply last_elem. }
  assert (t ∈ h :: l1 ++ l2) as Ht_in.
  { apply in_cons_app. right. by apply head_elem. }
  assert (n ≠ p) as Hnp by congruence.
  assert (n ≠ t) as Hnt by congruence.
  assert (live σ1 n) as Ln by (apply live_alloc; by left).
  assert (live σ1 p) as Lp.
  { apply live_alloc. right. by eapply ring_live. }
  assert (live σ1 t) as Lt.
  { apply live_alloc. right. by eapply ring_live. }
  assert (prv σ1 t = Some p) as Htp1.
  { unfold σ1. by rewrite prv_alloc, decide_False. }
  exists (splice_back p n t σ1). split; [|split].
  - unfold insert_before. cbn [m_cursor].
    rewrite bind_unfold, create_node_alloc. cbv beta iota.
    by apply Node_push_back_exec.
  - apply (repr_splice σ1 _ h l1 l2 vs1 vs2 v p n t); try done.
    + by apply repr_alloc.
    + unfold σ1. by rewrite dat_alloc, decide_True.
    + by apply splice_back_spliced.
  - apply preserves_drop_fresh.
    eapply preserves_trans; [apply preserves_alloc|].
    eapply preserves_spliced; [by apply splice_back_spliced | ..].
    + by apply list_elem_of_further.
    + apply list_elem_of_here.
    + by apply list_elem_of_further.
Qed.

(** [insert_after(position, data)] at the node [p] that ends [h :: l1]. *)
Lemma insert_after_spec σ l h l1 l2 (vs1 vs2 : list T) v p :
  repr σ h (l1 ++ l2) (vs1 ++ vs2) → length l1 = length vs1 →
  last (h :: l1) = Some p →
  ∃ σ', insert_after l (mkIter (Some p)) v σ = Ok tt σ' ∧
        repr σ' h (l1 ++ fresh (dom σ) :: l2) (vs1 ++ v :: vs2) ∧
        preserves σ σ' (h :: l1 ++ l2).
Proof.
  intros Hrep Hlen Hp. pose proof Hrep as [Hr _].
  destruct (head_snoc_Some l2 h) as [t Ht].
  destruct (ring_between _ _ _ _ _ _ Hr Hp Ht) as [Hpt Htp].
  pose proof (fresh_not_in_ring _ _ _ Hr) as Hfresh.
  set (n := fresh (dom σ)) in *. set (σ1 := alloc v σ).
  assert (p ∈ h :: l1 ++ l2) as Hp_in.
  { apply in_cons_app. left. by apply last_elem. }
  assert (t ∈ h :: l1 ++ l2) as Ht_in.
  { apply in_cons_app. right. by apply head_elem. }
  assert (n ≠ p) as Hnp by congruence.
  assert (n ≠ t) as Hnt by congruence.
  assert (live σ1 n) as Ln by (apply live_alloc; by left).
  assert (live σ1 p) as Lp.
  { apply live_alloc. right. by eapply ring_live. }
  assert (live σ1 t) as Lt.
  { apply live_alloc. right. by eapply ring_live. }
  assert (nxt σ1 p = Some t) as Hpt1.
  { unfold σ1. by rewrite nxt_alloc, decide_False. }
  exists (splice_front p n t σ1). split; [|split].
  - unfold insert_after. cbn [m_cursor].
    rewrite bind_unfold, create_node_alloc. cbv beta iota.
    by apply Node_push_front_exec.
  - apply (repr_splice σ1 _ h l1 l2 vs1 vs2 v p n t); try done.
    + by apply repr_alloc.
    + unfold σ1. by rewrite dat_alloc, decide_True.
    + by apply splice_front_spliced.
  - apply preserves_drop_fresh.
    eapply preserves_trans; [apply preserves_alloc|].
    eapply preserves_spliced; [by apply splice_front_spliced | ..].
    + by apply list_elem_of_further.
    + apply list_elem_of_here.
    + by apply list_elem_of_further.
Qed.

Lemma repr_length σ h ls (vs : list T) : repr σ h ls vs → length ls = length vs.
Proof. intros [_ Hd]. by eapply Forall2_length. Qed.

(** [push_back], [push_front] *)
Lemma push_back_spec σ l h ls (vs : list T) v :
  m_head l = Some h → repr σ h ls vs →
  ∃ σ', push_back l v σ = Ok tt σ' ∧
        repr σ' h (ls ++ [fresh (dom σ)]) (vs ++ [v]) ∧
        preserves σ σ' (h :: ls).
Proof.
  intros Hh Hrep.
  destruct (insert_before_spec σ l h ls [] vs [] v h) as (σ' & He & Hr & Hp);
    [by rewrite !app_nil_r | by eapply repr_length | done |].
  rewrite app_nil_r in Hp. exists σ'. split; [|done].
  unfold push_back, assert_head. rewrite Hh. exact He.
Qed.

Lemma push_front_spec σ l h ls (vs : list T) v :
  m_head l = Some h → repr σ h ls vs →
  ∃ σ', push_front l v σ = Ok tt σ' ∧
        repr σ' h (fresh (dom σ) :: ls) (v :: vs) ∧
        preserves σ σ' (h :: ls).
Proof.
  intros Hh Hrep.
  destruct (insert_after_spec σ l h [] ls [] vs v h) as (σ' & He & Hr & Hp);
    [done..|].
  exists σ'. split; [|done].
  unfold push_front, assert_head. rewrite Hh. exact He.
Qed.

(** [erase(position)] at any node of a ring, the sentinel included: the
    node is unlinked from its two neighbours and deallocated. *)
Lemma erase_in_ring σ l h ls x :
  ring σ h ls → x ∈ h :: ls →
  ∃ p s, prv σ x = Some p ∧ nxt σ x = Some s ∧
         erase l (mkIter (Some x)) σ = Ok (mkIter (Some s)) (unlink x p s σ) ∧
         unlinked σ (unlink x p s σ) x p s ∧
         preserves σ (unlink x p s σ) (h :: ls).
Proof.
  intros Hr Hx.
  destruct (ring_neighbours _ _ _ _ Hr Hx) as (p & s & Hp & Hs & Pin & Sin & _).
  assert (live σ x) as Lx by by eapply ring_live.
  assert (live σ p) as Lp by by eapply ring_live.
  assert (live σ s) as Ls by by eapply ring_live.
  exists p, s. split; [done|]. split; [done|]. split; [|split].
  - by apply erase_exec.
  - by apply unlink_unlinked.
  - eapply preserves_unlinked; [by apply unlink_unlinked | done..].
Qed.

(** [erase(position)] at a real element. *)
Lemma erase_spec σ l h l1 x l2 (vs1 vs2 : list T) v :
  repr σ h (l1 ++ x :: l2) (vs1 ++ v :: vs2) → length l1 = length vs1 →
  ∃ s σ', head (l2 ++ [h]) = Some s ∧
          erase l (mkIter (Some x)) σ = Ok (mkIter (Some s)) σ' ∧
          repr σ' h (l1 ++ l2) (vs1 ++ vs2) ∧
          freed σ' x ∧
          preserves σ σ' (h :: l1 ++ x :: l2).
Proof.
  intros Hrep Hlen. pose proof Hrep as [Hr _].
  destruct (last_cons_Some h l1) as [p Hp].
  destruct (head_snoc_Some l2 h) as [s Hs].
  destruct (ring_at _ _ _ _ _ _ _ Hr Hp Hs) as (Hxp & Hxs & _).
  destruct (erase_in_ring σ l h (l1 ++ x :: l2) x Hr)
    as (p' & s' & Hp' & Hs' & He & Hun & Hpres).
  { rewrite elem_of_cons, elem_of_app, elem_of_cons. tauto. }
  assert (p' = p) as -> by congruence. assert (s' = s) as -> by congruence.
  exists s, (unlink x p s σ).
  split; [done|]. split; [done|]. split; [by eapply repr_unlink|].
  split; [|done]. by destruct Hun as (_ & _ & _ & _ & F & _).
Qed.

(** [begin()] *)
Lemma begin_live σ l h :
  m_head l = Some h → live σ h → begin l σ = Ok (mkIter (nxt σ h)) σ.
Proof.
  intros Hh Lh. unfold begin. rewrite Hh, bind_unfold, get_next_live by done.
  reflexivity.
Qed.

Lemma begin_ring σ l h ls :
  m_head l = Some h → ring σ h ls →
  begin l σ = Ok (mkIter (head (ls ++ [h]))) σ.
Proof.
  intros Hh Hr. destruct (ring_head _ _ _ Hr) as (p & s & _ & -> & _ & Hs & _).
  rewrite <- Hs. apply begin_live; [done|]. eapply ring_live; [done|].
  apply list_elem_of_here.
Qed.

(** [pop_front], [pop_back] on a list that holds an element. *)
Lemma pop_front_spec σ l h x ls (vs : list T) v :
  m_head l = Some h → repr σ h (x :: ls) (v :: vs) →
  ∃ σ', pop_front l σ = Ok tt σ' ∧ repr σ' h ls vs ∧ freed σ' x ∧
        preserves σ σ' (h :: x :: ls).
Proof.
  intros Hh Hrep. pose proof Hrep as [Hr _].
  destruct (erase_spec σ l h [] x ls [] vs v Hrep eq_refl)
    as (s & σ' & _ & He & Hrep' & Hf & Hp).
  exists σ'. split; [|done].
  unfold pop_front. rewrite bind_unfold, (begin_ring _ _ _ _ Hh Hr).
  cbn [app head]. cbv beta iota. rewrite bind_unfold, He. reflexivity.
Qed.

Lemma pop_back_spec σ l h x ls (vs : list T) v :
  m_head l = Some h → repr σ h (ls ++ [x]) (vs ++ [v]) →
  length ls = length vs →
  ∃ σ', pop_back l σ = Ok tt σ' ∧ repr σ' h ls vs ∧ freed σ' x ∧
        preserves σ σ' (h :: ls ++ [x]).
Proof.
  intros Hh Hrep Hlen. pose proof Hrep as [Hr _].
  destruct (erase_spec σ l h ls x [] vs [] v Hrep Hlen)
    as (s & σ' & _ & He & Hrep' & Hf & Hp).
  rewrite !app_nil_r in Hrep'.
  exists σ'. split; [|done].
  destruct (ring_head _ _ _ Hr) as (p & s' & Hl & _ & Hpv & _).
  assert (p = x) as ->.
  { rewrite app_comm_cons, last_snoc in Hl. congruence. }
  unfold pop_back. rewrite Hh, bind_unfold, get_prev_live.
  2:{ eapply ring_live; [done|]. apply list_elem_of_here. }
  rewrite Hpv. cbv beta iota. rewrite bind_unfold, He. reflexivity.
Qed.

End operations.

(** ** Traversals *)

Section traversal.
Context {T : Type}.

Abbreviation heap := (gmap loc (option (@Node T))).
Implicit Types σ : heap.

Lemma ring_elem_not_head σ h l1 x l2 : ring σ h (l1 ++ x :: l2) → x ≠ h.
Proof.
  intros [Hnd _] ->. apply NoDup_cons in Hnd as [Hh _]. apply Hh.
  rewrite elem_of_app, elem_of_cons. tauto.
Qed.

Lemma Iterator_incr_ring σ h l1 x l2 :
  ring σ h (l1 ++ x :: l2) →
  Iterator_incr (mkIter (Some x)) σ = Ok (mkIter (head (l2 ++ [h]))) σ.
Proof.
  intros Hr. destruct (last_cons_Some h l1) as [p Hp].
  destruct (head_snoc_Some l2 h) as [s Hs].
  destruct (ring_at _ _ _ _ _ _ _ Hr Hp Hs) as (_ & Hn & _).
  unfold Iterator_incr. cbn [m_cursor].
  rewrite bind_unfold, get_next_live by by eapply live_nxt.
  by rewrite Hn, Hs.
Qed.

Lemma collect_spec σ h l2 : ∀ l1 (vs1 vs2 : list T) fuel,
  repr σ h (l1 ++ l2) (vs1 ++ vs2) → length l1 = length vs1 →
  length l2 < fuel →
  collect fuel (mkIter (head (l2 ++ [h]))) (mkIter (Some h)) σ = Ok vs2 σ.
Proof.
  induction l2 as [|x l2 IH]; intros l1 vs1 vs2 fuel Hrep Hlen Hfuel.
  - destruct fuel as [|fuel]; [simpl in Hfuel; lia|].
    assert (vs2 = []) as ->.
    { apply repr_length in Hrep. rewrite !length_app in Hrep.
      destruct vs2; [done | simpl in Hrep; lia]. }
    cbn [collect app head]. unfold Iterator_eq. cbn [m_cursor].
    by rewrite bool_decide_eq_true_2.
  - destruct fuel as [|fuel]; [simpl in Hfuel; lia|].
    pose proof Hrep as [Hr Hd].
    apply Forall2_app_inv in Hd as [_ Hd]; [|done].
    apply Forall2_cons_inv_l in Hd as (v & vs2' & Hv & _ & ->).
    cbn [collect app head]. unfold Iterator_eq. cbn [m_cursor].
    rewrite bool_decide_eq_false_2.
    2:{ intros [= ->]. by eapply ring_elem_not_head. }
    unfold Iterator_deref. cbn [m_cursor].
    rewrite bind_unfold, (get_data_live _ _ _ Hv). cbv beta iota.
    rewrite bind_unfold, (Iterator_incr_ring _ _ _ _ _ Hr). cbv beta iota.
    rewrite bind_unfold, (IH (l1 ++ [x]) (vs1 ++ [v]) vs2' fuel).
    + reflexivity.
    + by rewrite <- !app_assoc.
    + rewrite !length_app. simpl. lia.
    + simpl in Hfuel. lia.
Qed.

Lemma distance_spec σ h l2 : ∀ l1 fuel,
  ring σ h (l1 ++ l2) → length l2 < fuel →
  distance fuel (mkIter (head (l2 ++ [h]))) (mkIter (Some h)) σ
  = Ok (length l2) σ.
Proof.
  induction l2 as [|x l2 IH]; intros l1 fuel Hr Hfuel.
  - destruct fuel as [|fuel]; [simpl in Hfuel; lia|].
    cbn [distance app head]. unfold Iterator_eq. cbn [m_cursor].
    by rewrite bool_decide_eq_true_2.
  - destruct fuel as [|fuel]; [simpl in Hfuel; lia|].
    cbn [distance app head]. unfold Iterator_eq. cbn [m_cursor].
    rewrite bool_decide_eq_false_2.
    2:{ intros [= ->]. by eapply ring_elem_not_head. }
    rewrite bind_unfold, (Iterator_incr_ring _ _ _ _ _ Hr). cbv beta iota.
    rewrite bind_unfold, (IH (l1 ++ [x]) fuel).
    + reflexivity.
    + by rewrite <- !app_assoc.
    + simpl in Hfuel. lia.
Qed.

(** Reading a ring front to back yields the values it represents, and
    [size()] counts them. *)
Lemma elements_spec σ l h ls (vs : list T) fuel :
  m_head l = Some h → repr σ h ls vs → length ls < fuel →
  elements fuel l σ = Ok vs σ.
Proof.
  intros Hh Hrep Hfuel. pose proof Hrep as [Hr _].
  unfold elements, end_. rewrite bind_unfold, (begin_ring _ _ _ _ Hh Hr), Hh.
  by apply (collect_spec σ h ls [] [] vs fuel).
Qed.

Lemma size_spec σ l h ls fuel :
  m_head l = Some h → ring σ h ls → length ls < fuel →
  size fuel l σ = Ok (length ls) σ.
Proof.
  intros Hh Hr Hfuel.
  unfold size, end_. rewrite bind_unfold, (begin_ring _ _ _ _ Hh Hr), Hh.
  by apply (distance_spec σ h ls [] fuel).
Qed.

End traversal.

(** ** Checking [repr] by computation, and iterator positions *)

Section positions.
Context {T : Type}.

Abbreviation heap := (gmap loc (option (@Node T))).
Implicit Types σ : heap.

Lemma repr_check_sound `{EqDecision T} σ h ls (vs : list T) :
  repr_check σ h ls vs = true → repr σ h ls vs.
Proof.
  unfold repr_check. rewrite !andb_true_iff, !bool_decide_eq_true.
  intros [[Hnd Hall] Hd]. split; [split|]; [done | | done].
  intros a b (i & Ha & Hb). rewrite forallb_forall in Hall.
  specialize (Hall i). rewrite Ha, Hb, bool_decide_eq_true in Hall.
  apply Hall, in_seq. apply lookup_lt_Some in Ha. lia.
Qed.

Lemma advance_index σ h l2 : ∀ l1 k x,
  ring σ h (l1 ++ l2) → l2 !! k = Some x →
  advance k (mkIter (head (l2 ++ [h]))) σ = Ok (mkIter (Some x)) σ.
Proof.
  induction l2 as [|y l2 IH]; intros l1 k x Hr Hk; [done|].
  destruct k as [|k]; simpl in Hk.
  - by injection Hk as ->.
  - cbn [advance app head].
    rewrite bind_unfold, (Iterator_incr_ring _ _ _ _ _ Hr). cbv beta iota.
    apply (IH (l1 ++ [y])); [by rewrite <- app_assoc | done].
Qed.

Lemma advance_in_ring σ h ls k : ∀ x,
  ring σ h ls → x ∈ h :: ls →
  ∃ y, advance k (mkIter (Some x)) σ = Ok (mkIter (Some y)) σ ∧ y ∈ h :: ls.
Proof.
  induction k as [|k IH]; intros x Hr Hx; [by exists x|].
  destruct (ring_neighbours _ _ _ _ Hr Hx) as (p & s & _ & Hs & _ & Sin & _).
  destruct (IH s Hr Sin) as (y & Hy & Yin). exists y. split; [|done].
  cbn [advance]. unfold Iterator_incr. cbn [m_cursor].
  rewrite !bind_unfold, get_next_live by by eapply ring_live.
  rewrite Hs. exact Hy.
Qed.

(** Every node of a ring is the position just after some prefix of the
    elements, and the position that ends some prefix. *)
Lemma ring_split_before h (ls : list loc) t :
  t ∈ h :: ls → NoDup (h :: ls) →
  ∃ l1 l2, ls = l1 ++ l2 ∧ head (l2 ++ [h]) = Some t.
Proof.
  intros Ht Hnd. apply elem_of_cons in Ht as [-> | Ht].
  - exists ls, []. by rewrite app_nil_r.
  - apply list_elem_of_split in Ht as (l1 & l2 & ->). by exists l1, (t :: l2).
Qed.

Lemma ring_split_after h (ls : list loc) p :
  p ∈ h :: ls →
  ∃ l1 l2, ls = l1 ++ l2 ∧ last (h :: l1) = Some p.
Proof.
  intros Hp. apply elem_of_cons in Hp as [-> | Hp].
  - by exists [], ls.
  - apply list_elem_of_split in Hp as (l1 & l2 & ->).
    exists (l1 ++ [p]), l2. split; [by rewrite <- app_assoc|].
    by rewrite app_comm_cons, last_snoc.
Qed.

End positions.


(** ** One mutation of a well-formed list *)

Section mutations.
Context {T : Type}.

Abbreviation heap := (gmap loc (option (@Node T))).
Implicit Types σ : heap.

Lemma ring_begin_in σ h ls :
  ring σ h ls → ∃ t, head (ls ++ [h]) = Some t ∧ t ∈ h :: ls.
Proof.
  intros _. destruct (head_snoc_Some ls h) as [t Ht]. exists t.
  split; [done|]. apply head_elem in Ht.
  rewrite elem_of_app, list_elem_of_singleton in Ht.
  rewrite elem_of_cons. tauto.
Qed.

(** The position [std::ranges::next(begin(), k)] of a well-formed list. *)
Lemma position_in_ring σ l h ls k :
  m_head l = Some h → ring σ h ls →
  ∃ t y, begin l σ = Ok (mkIter (Some t)) σ ∧
         advance k (mkIter (Some t)) σ = Ok (mkIter (Some y)) σ ∧
         y ∈ h :: ls ∧ (∀ x, ls !! k = Some x → y = x).
Proof.
  intros Hh Hr. destruct (ring_begin_in _ _ _ Hr) as (t & Ht & Tin).
  destruct (advance_in_ring σ h ls k t Hr Tin) as (y & Hy & Yin).
  exists t, y. rewrite (begin_ring _ _ _ _ Hh Hr), Ht.
  split; [done|]. split; [done|]. split; [done|]. intros x Hx.
  pose proof (advance_index σ h ls [] k x Hr Hx) as Hadv.
  rewrite Ht, Hy in Hadv. congruence.
Qed.

(** [pop_front] and [pop_back] on a list whose sentinel is self-linked. *)
Lemma pop_empty_exec σ l h :
  m_head l = Some h → nxt σ h = Some h → prv σ h = Some h →
  begin l σ = Ok (end_ l) σ ∧
  erase l (end_ l) σ = Ok (end_ l) (unlink h h h σ) ∧
  pop_front l σ = Ok tt (unlink h h h σ) ∧
  pop_back l σ = Ok tt (unlink h h h σ).
Proof.
  intros Hh Hn Hp. pose proof (live_nxt _ _ _ Hn) as Lh.
  assert (begin l σ = Ok (end_ l) σ) as Hb.
  { rewrite (begin_live _ _ _ Hh Lh), Hn. unfold end_. by rewrite Hh. }
  assert (erase l (end_ l) σ = Ok (end_ l) (unlink h h h σ)) as He.
  { unfold end_. rewrite Hh. by apply erase_exec. }
  split; [done|]. split; [done|]. split.
  - unfold pop_front. by rewrite bind_unfold, Hb, bind_unfold, He.
  - unfold pop_back. rewrite Hh, bind_unfold, get_prev_live, Hp by done.
    unfold end_ in He. rewrite Hh in He. by rewrite bind_unfold, He.
Qed.

Lemma bind_assoc {S A B C} (m : M S A) (f : A → M S B) (g : B → M S C) s :
  ((m ≫= f) ≫= g) s = (m ≫= λ a, f a ≫= g) s.
Proof. rewrite !bind_unfold. by destruct (m s). Qed.

Lemma elem_cons_middle h (l1 l2 : list loc) n z :
  z ∈ h :: l1 ++ n :: l2 → z ∈ h :: l1 ++ l2 ∨ z = n.
Proof. rewrite !elem_of_cons, !elem_of_app, elem_of_cons. tauto. Qed.

Lemma elem_drop_middle h (l1 l2 : list loc) x z :
  z ∈ h :: l1 ++ l2 → z ∈ h :: l1 ++ x :: l2.
Proof. rewrite !elem_of_cons, !elem_of_app, elem_of_cons. tauto. Qed.

Lemma repr_split_values σ h l1 l2 (vs : list T) :
  repr σ h (l1 ++ l2) vs →
  ∃ vs1 vs2, vs = vs1 ++ vs2 ∧ length l1 = length vs1.
Proof.
  intros [_ Hd]. apply Forall2_app_inv_l in Hd as (vs1 & vs2 & H1 & _ & ->).
  exists vs1, vs2. split; [done|]. by eapply Forall2_length.
Qed.

Lemma repr_split_values_cons σ h l1 x l2 (vs : list T) :
  repr σ h (l1 ++ x :: l2) vs →
  ∃ vs1 v vs2, vs = vs1 ++ v :: vs2 ∧ length l1 = length vs1.
Proof.
  intros [_ Hd]. apply Forall2_app_inv_l in Hd as (vs1 & vs2 & H1 & H2 & ->).
  apply Forall2_cons_inv_l in H2 as (v & vs2' & _ & _ & ->).
  exists vs1, v, vs2'. split; [done|]. by eapply Forall2_length.
Qed.

(** Every mutation of a well-formed list returns and touches only the nodes
    of that list. The list stays well formed, its nodes being old ones or
    the one freshly allocated, unless the call was outside the contract and
    deallocated the sentinel. *)
Lemma apply_mutation_ring σ l h ls (vs : list T) m :
  m_head l = Some h → repr σ h ls vs →
  ∃ σ', apply_mutation l m σ = Ok tt σ' ∧
        preserves σ σ' (h :: ls) ∧
        ((∃ ls' vs', repr σ' h ls' vs' ∧
            ∀ z, z ∈ h :: ls' → z ∈ h :: ls ∨ z = fresh (dom σ)) ∨
         (freed σ' h ∧ ¬ in_contract (length vs) m)).
Proof.
  intros Hh Hrep. pose proof Hrep as [Hr _].
  pose proof (repr_length _ _ _ _ Hrep) as Hlen.
  destruct m as [v | v | | | k | k v | k v]; cbn [apply_mutation].
  - destruct (push_back_spec σ l h ls vs v Hh Hrep) as (σ' & He & Hr' & Hp).
    exists σ'. split; [done|]. split; [done|]. left.
    exists (ls ++ [fresh (dom σ)]), (vs ++ [v]). split; [done|].
    intros z. rewrite !elem_of_cons, elem_of_app, list_elem_of_singleton. tauto.
  - destruct (push_front_spec σ l h ls vs v Hh Hrep) as (σ' & He & Hr' & Hp).
    exists σ'. split; [done|]. split; [done|]. left.
    exists (fresh (dom σ) :: ls), (v :: vs). split; [done|].
    intros z. rewrite !elem_of_cons. tauto.
  - destruct ls as [|x ls].
    + destruct (ring_nil_inv _ _ Hr) as [Hn Hp].
      destruct (pop_empty_exec σ l h Hh Hn Hp) as (_ & _ & He & _).
      assert (freed (unlink h h h σ) h) as Hf by apply freed_free_eq.
      exists (unlink h h h σ). split; [done|]. split.
      * eapply preserves_unlinked;
          [apply unlink_unlinked; by eapply live_nxt | apply list_elem_of_here..].
      * right. split; [done|]. destruct vs; simpl in *; lia.
    + destruct vs as [|v vs]; [done|].
      destruct (pop_front_spec σ l h x ls vs v Hh Hrep) as (σ' & He & Hr' & _ & Hp).
      exists σ'. split; [done|]. split; [done|]. left.
      exists ls, vs. split; [done|].
      intros z. rewrite !elem_of_cons. tauto.
  - destruct ls as [|x ls _] using rev_ind.
    + destruct (ring_nil_inv _ _ Hr) as [Hn Hp].
      destruct (pop_empty_exec σ l h Hh Hn Hp) as (_ & _ & _ & He).
      assert (freed (unlink h h h σ) h) as Hf by apply freed_free_eq.
      exists (unlink h h h σ). split; [done|]. split.
      * eapply preserves_unlinked;
          [apply unlink_unlinked; by eapply live_nxt | apply list_elem_of_here..].
      * right. split; [done|]. destruct vs; simpl in *; lia.
    + destruct (repr_split_values_cons _ _ _ _ _ _ Hrep)
        as (vs1 & v & vs2 & -> & Hl1).
      assert (vs2 = []) as ->.
      { rewrite !length_app in Hlen. simpl in Hlen.
        destruct vs2; [done | simpl in Hlen; lia]. }
      destruct (pop_back_spec σ l h x ls vs1 v Hh Hrep Hl1)
        as (σ' & He & Hr' & _ & Hp).
      exists σ'. split; [done|]. split; [done|]. left.
      exists ls, vs1. split; [done|].
      intros z. rewrite !elem_of_cons, elem_of_app. tauto.
  - destruct (position_in_ring σ l h ls k Hh Hr) as (t & y & Hb & Hpos & Yin & Hidx).
    rewrite bind_unfold, Hb. cbv beta iota.
    rewrite bind_unfold, Hpos. cbv beta iota.
    apply elem_of_cons in Yin as [-> | Yin].
    + destruct (erase_in_ring σ l h ls h Hr) as (p & s & _ & _ & He & Hun & Hp);
        [apply list_elem_of_here|].
      exists (unlink h p s σ). split; [by rewrite bind_unfold, He|].
      split; [done|]. right. split; [by destruct Hun as (_ & _ & _ & _ & F & _)|].
      cbn [in_contract]. rewrite <- Hlen. intros Hk.
      destruct (lookup_lt_is_Some_2 ls k Hk) as [x Hx].
      specialize (Hidx x Hx). subst x.
      destruct Hr as [Hnd _]. apply NoDup_cons in Hnd as [Hnin _].
      apply Hnin, list_elem_of_lookup. eauto.
    + apply list_elem_of_split in Yin as (l1 & l2 & ->).
      destruct (repr_split_values_cons _ _ _ _ _ _ Hrep)
        as (vs1 & v & vs2 & -> & Hl1).
      destruct (erase_spec σ l h l1 y l2 vs1 vs2 v Hrep Hl1)
        as (s & σ' & _ & He & Hr' & _ & Hp).
      exists σ'. split; [by rewrite bind_unfold, He|]. split; [done|]. left.
      exists (l1 ++ l2), (vs1 ++ vs2). split; [done|].
      intros z Hz. left. by apply elem_drop_middle.
  - destruct (position_in_ring σ l h ls k Hh Hr) as (t & y & Hb & Hpos & Yin & _).
    rewrite bind_unfold, Hb. cbv beta iota.
    rewrite bind_unfold, Hpos. cbv beta iota.
    destruct Hr as [Hnd Hadj].
    destruct (ring_split_before h ls y Yin Hnd) as (l1 & l2 & -> & Hy).
    destruct (repr_split_values _ _ _ _ _ Hrep) as (vs1 & vs2 & -> & Hl1).
    destruct (insert_before_spec σ l h l1 l2 vs1 vs2 v y Hrep Hl1 Hy)
      as (σ' & He & Hr' & Hp).
    exists σ'. split; [done|]. split; [done|]. left.
    exists (l1 ++ fresh (dom σ) :: l2), (vs1 ++ v :: vs2). split; [done|].
    apply elem_cons_middle.
  - destruct (position_in_ring σ l h ls k Hh Hr) as (t & y & Hb & Hpos & Yin & _).
    rewrite bind_unfold, Hb. cbv beta iota.
    rewrite bind_unfold, Hpos. cbv beta iota.
    destruct (ring_split_after h ls y Yin) as (l1 & l2 & -> & Hy).
    destruct (repr_split_values _ _ _ _ _ Hrep) as (vs1 & vs2 & -> & Hl1).
    destruct (insert_after_spec σ l h l1 l2 vs1 vs2 v y Hrep Hl1 Hy)
      as (σ' & He & Hr' & Hp).
    exists σ'. split; [done|]. split; [done|]. left.
    exists (l1 ++ fresh (dom σ) :: l2), (vs1 ++ v :: vs2). split; [done|].
    apply elem_cons_middle.
Qed.

End mutations.

(** ** The ring invariant in terms of the links *)

Section invariant.
Context {T : Type}.

Abbreviation heap := (gmap loc (option (@Node T))).
Implicit Types σ : heap.






End invariant.

(** ** Copy assignment *)

Section assignment.
Context {T : Type}.

Abbreviation heap := (gmap loc (option (@Node T))).
Implicit Types σ : heap.

Lemma empty_null σ a : empty (mkList None a) σ = Fault Undefined.
Proof. reflexivity. Qed.

Lemma clear_null σ a fuel : clear (S fuel) (mkList None a) σ = Fault Undefined.
Proof. reflexivity. Qed.

Lemma M_assign_null σ a fuel first last :
  __M_assign (S fuel) (mkList None a) first last σ = Fault Undefined.
Proof. unfold __M_assign. by destruct (Iterator_eq first last). Qed.

Lemma clear_outcome σ l fuel :
  clear (S fuel) l σ = Fault Undefined ∨
  ∃ σ', clear (S fuel) l σ = Ok (mkList None (m_alloc l)) σ'.
Proof.
  destruct l as [[h|] a]; [|by left].
  unfold clear. cbn [clear_loop m_head m_alloc]. unfold empty. cbn [m_head].
  rewrite bool_decide_eq_true_2 by done.
  rewrite !bind_unfold, !ret_unfold. cbn [negb]. rewrite ret_unfold.
  destruct (σ !! h) as [[n|]|] eqn:E;
    rewrite bind_unfold; unfold destroy_deallocate; rewrite E; eauto.
Qed.

Lemma begin_outcome σ l :
  begin l σ = Fault Undefined ∨ ∃ b, begin l σ = Ok b σ.
Proof.
  unfold begin, get_next, load. rewrite !bind_unfold.
  destruct (m_head l) as [h|]; [|by left].
  destruct (σ !! h) as [[n|]|] eqn:E; rewrite ?E; eauto.
Qed.

(** With the policy flags of [std::allocator], copy assignment between two
    distinct lists is undefined whatever the lists: [__M_copy_assign] clears
    the destination, which nulls its head pointer, and [__M_assign] then
    dereferences that pointer in [empty()]. *)
Lemma copy_assign_std_undefined σ fuel this rhs :
  copy_assign std_allocator_traits (S fuel) this rhs σ = Fault Undefined.
Proof.
  unfold copy_assign. cbn [propagate_on_container_copy_assignment
    std_allocator_traits]. unfold __M_copy_assign_false.
  rewrite bind_unfold.
  destruct (clear_outcome σ this fuel) as [-> | [σ1 ->]]; [done|].
  rewrite bind_unfold.
  destruct (begin_outcome σ1 rhs) as [-> | [b ->]]; [done|].
  apply M_assign_null.
Qed.

End assignment.

(** ** Copy construction *)

Section cloning.
Context {T : Type}.
Variable T0 : T.

Abbreviation heap := (gmap loc (option (@Node T))).
Implicit Types σ : heap.

Lemma Node_push_back_sentinel σ c lc (vc : list T) v :
  repr σ c lc vc →
  ∃ σ', Node_push_back (Some c) (Some (fresh (dom σ))) (alloc v σ) = Ok tt σ' ∧
        repr σ' c (lc ++ [fresh (dom σ)]) (vc ++ [v]) ∧
        preserves σ σ' (c :: lc).
Proof.
  intros Hrep.
  destruct (insert_before_spec σ (mkList (Some c) 0) c lc [] vc [] v c)
    as (σ' & He & Hr & Hp);
    [by rewrite !app_nil_r | by eapply repr_length | done |].
  rewrite app_nil_r in Hp. exists σ'. split; [|done].
  unfold insert_before in He. cbn [m_cursor] in He.
  by rewrite bind_unfold, create_node_alloc in He.
Qed.

Lemma clone_loop_spec ha l2 : ∀ l1 (vs1 vs2 : list T) σ c lc vc fuel,
  repr σ ha (l1 ++ l2) (vs1 ++ vs2) → length l1 = length vs1 →
  repr σ c lc vc →
  (∀ z, z ∈ c :: lc → z ∉ ha :: l1 ++ l2) →
  length l2 < fuel →
  ∃ σ' lc',
    clone_loop fuel (Some c) (head (l2 ++ [ha])) (Some ha) σ = Ok tt σ' ∧
    repr σ' c (lc ++ lc') (vc ++ vs2) ∧
    repr σ' ha (l1 ++ l2) (vs1 ++ vs2) ∧
    (∀ z, z ∈ c :: lc ++ lc' → z ∉ ha :: l1 ++ l2) ∧
    preserves σ σ' (c :: lc).
Proof.
  induction l2 as [|x l2 IH];
    intros l1 vs1 vs2 σ c lc vc fuel Hrep Hlen Hc Hdisj Hfuel.
  - destruct fuel as [|fuel]; [simpl in Hfuel; lia|].
    assert (vs2 = []) as ->.
    { apply repr_length in Hrep. rewrite !length_app in Hrep.
      destruct vs2; [done | simpl in Hrep; lia]. }
    exists σ, []. cbn [clone_loop app head].
    rewrite bool_decide_eq_false_2 by (intros H; by apply H).
    rewrite !app_nil_r in *. split; [done|]. split; [done|]. split; [done|].
    split; [done | apply preserves_refl].
  - destruct fuel as [|fuel]; [simpl in Hfuel; lia|].
    pose proof Hrep as [Hr Hd].
    apply Forall2_app_inv in Hd as [_ Hd]; [|done].
    apply Forall2_cons_inv_l in Hd as (v & vs2' & Hv & _ & ->).
    cbn [clone_loop app head].
    rewrite bool_decide_eq_true_2.
    2:{ intros [= ->]. by eapply ring_elem_not_head. }
    rewrite bind_unfold, (get_data_live _ _ _ Hv). cbv beta iota.
    rewrite bind_unfold, create_node_alloc. cbv beta iota.
    destruct (Node_push_back_sentinel σ c lc vc v Hc)
      as (σ1 & He & Hc1 & Hp1).
    rewrite bind_unfold, He. cbv beta iota.
    assert (repr σ1 ha (l1 ++ x :: l2) (vs1 ++ v :: vs2')) as Hrep1.
    { eapply preserves_repr; [exact Hp1 | | exact Hrep].
      intros z Hz Hzc. by apply (Hdisj z). }
    pose proof (Iterator_incr_ring σ1 ha l1 x l2 (proj1 Hrep1)) as Hincr.
    unfold Iterator_incr in Hincr. cbn [m_cursor] in Hincr.
    rewrite bind_unfold in Hincr.
    rewrite bind_unfold.
    destruct (get_next (Some x) σ1) as [q σq|f]; [|done].
    rewrite ret_unfold in Hincr. injection Hincr as -> ->.
    set (n := fresh (dom σ)) in *.
    assert (n ∉ ha :: l1 ++ x :: l2) as Hn.
    { by apply fresh_not_in_ring. }
    destruct (IH (l1 ++ [x]) (vs1 ++ [v]) vs2' σ1 c (lc ++ [n]) (vc ++ [v]) fuel)
      as (σ' & lc' & Hloop & Hc' & Ha' & Hdisj' & Hp').
    + by rewrite <- !app_assoc.
    + rewrite !length_app. simpl. lia.
    + done.
    + intros z Hz. rewrite <- app_assoc. cbn [app].
      rewrite app_comm_cons, elem_of_app, list_elem_of_singleton in Hz.
      destruct Hz as [Hz | ->]; [by apply Hdisj | done].
    + simpl in Hfuel. lia.
    + exists σ', (n :: lc'). rewrite <- !app_assoc in *. cbn [app] in *.
      split; [done|]. split; [done|]. split; [done|]. split; [done|].
      apply preserves_drop_fresh. fold n.
      eapply preserves_trans.
      * eapply preserves_weaken; [|exact Hp1].
        intros z Hz. by apply list_elem_of_further.
      * eapply preserves_weaken; [|exact Hp'].
        intros z. rewrite !elem_of_cons, elem_of_app, list_elem_of_singleton.
        tauto.
Qed.

(** [list(const list &)] on a well-formed list: the new list has a sentinel of
    its own, made of nodes that did not exist before, and holds the same
    values; no node that existed before is changed. *)
Lemma list_copy_spec σ a ha la (va : list T) fuel :
  m_head a = Some ha → repr σ ha la va → length la < fuel →
  ∃ σ' lb,
    list_copy T0 fuel a σ = Ok (mkList (Some (fresh (dom σ))) (m_alloc a)) σ' ∧
    repr σ' (fresh (dom σ)) lb va ∧
    repr σ' ha la va ∧
    (∀ z, z ∈ fresh (dom σ) :: lb → z ∉ ha :: la) ∧
    preserves σ σ' [].
Proof.
  intros Hh Hrep Hfuel. pose proof Hrep as [Hr _].
  destruct (head_snoc_Some la ha) as [t Ht].
  destruct (ring_between σ ha [] la ha t Hr eq_refl Ht) as [Hnt Hpt].
  set (c := fresh (dom σ)). set (σ0 := alloc T0 σ).
  assert (repr σ0 ha la va) as Hrep0 by by apply repr_alloc.
  assert (repr σ0 c [] []) as Hc0 by apply list_default_spec.
  assert (c ∉ ha :: la) as Hcin by by apply fresh_not_in_ring.
  destruct (clone_loop_spec ha la [] [] va σ0 c [] [] fuel)
    as (σ' & lb & Hloop & Hb & Ha & Hdisj & Hp); try done.
  { intros z Hz. apply list_elem_of_singleton in Hz as ->. done. }
  exists σ', lb. cbn [app] in *. split; [|split; [done|split; [done|split; [done|]]]].
  - unfold list_copy. rewrite Hh.
    rewrite bind_unfold, get_next_live by by eapply live_nxt.
    rewrite Hnt. cbv beta iota. unfold __M_clone.
    rewrite bool_decide_eq_false_2 by done.
    rewrite !bind_unfold, create_node_alloc. cbv beta iota. fold c σ0.
    rewrite bind_unfold, get_prev_live.
    2:{ eapply ring_live; [apply Hrep0|]. apply head_elem in Ht.
        rewrite elem_of_app, list_elem_of_singleton in Ht.
        rewrite elem_of_cons. tauto. }
    assert (prv σ0 t = Some ha) as ->.
    { destruct (ring_between σ0 ha [] la ha t (proj1 Hrep0) eq_refl Ht). done. }
    cbv beta iota. rewrite bind_unfold, <- Ht, Hloop. reflexivity.
  - apply preserves_drop_fresh. fold c.
    eapply preserves_trans; [apply preserves_alloc | exact Hp].
Qed.

End cloning.

(** ** Two lists in one store *)

Section independence.
Context {T : Type}.

Abbreviation heap := (gmap loc (option (@Node T))).
Implicit Types σ : heap.

(** Once the sentinel of a list is deallocated, every mutation of that list
    is undefined. *)
Lemma apply_mutation_dangling σ l h (m : @mutation T) :
  m_head l = Some h → freed σ h → apply_mutation l m σ = Fault Undefined.
Proof.
  intros Hh Hf. pose proof (freed_not_live _ _ Hf) as Hd.
  assert (begin l σ = Fault Undefined) as Hb.
  { unfold begin. by rewrite Hh, bind_unfold, get_next_dead. }
  destruct m as [v | v | | | k | k v | k v]; cbn [apply_mutation].
  - unfold push_back, assert_head. rewrite Hh.
    rewrite bool_decide_eq_true_2 by done.
    rewrite bind_unfold, ret_unfold, bind_unfold, create_node_alloc.
    unfold Node_push_back. rewrite bind_unfold, get_prev_dead; [done|].
    apply freed_not_live, freed_alloc, Hf.
  - unfold push_front, assert_head. rewrite Hh.
    rewrite bool_decide_eq_true_2 by done.
    rewrite bind_unfold, ret_unfold, bind_unfold, create_node_alloc.
    unfold Node_push_front. rewrite bind_unfold, get_next_dead; [done|].
    apply freed_not_live, freed_alloc, Hf.
  - unfold pop_front. by rewrite bind_unfold, Hb.
  - unfold pop_back. by rewrite Hh, bind_unfold, get_prev_dead.
  - by rewrite bind_unfold, Hb.
  - by rewrite bind_unfold, Hb.
  - by rewrite bind_unfold, Hb.
Qed.

Lemma apply_mutation_frame σ σ' x hx hy ly (vy : list T) m :
  m_head x = Some hx →
  repr σ hy ly vy → apart σ hx (hy :: ly) →
  apply_mutation x m σ = Ok tt σ' →
  repr σ' hy ly vy ∧ apart σ' hx (hy :: ly).
Proof.
  intros Hh Hy [Hf | (lx & vx & Hx & Hdisj)] He.
  { by rewrite (apply_mutation_dangling σ x hx m Hh Hf) in He. }
  destruct (apply_mutation_ring σ x hx lx vx m Hh Hx)
    as (σ1 & He1 & Hp & Hnew).
  rewrite He1 in He. injection He as <-. split.
  - eapply preserves_repr; [exact Hp | | exact Hy].
    intros z Hz Hzx. by apply (Hdisj z).
  - destruct Hnew as [(lx' & vx' & Hx' & Hsub) | [Hf _]]; [|by left].
    right. exists lx', vx'. split; [done|].
    intros z Hz Hzy. destruct (Hsub z Hz) as [Hold | ->].
    + by apply (Hdisj z).
    + eapply fresh_not_in_ring; [apply Hy | done].
Qed.

Lemma run_mutations_frame x hx hy ly (vy : list T) ms : ∀ σ σ',
  m_head x = Some hx →
  repr σ hy ly vy → apart σ hx (hy :: ly) →
  run_mutations x ms σ = Ok tt σ' →
  repr σ' hy ly vy.
Proof.
  induction ms as [|m ms IH]; intros σ σ' Hh Hy Hx Hrun.
  - cbn [run_mutations] in Hrun. rewrite ret_unfold in Hrun. congruence.
  - cbn [run_mutations] in Hrun. rewrite bind_unfold in Hrun.
    destruct (apply_mutation x m σ) as [[] σ1|f] eqn:He; [|done].
    destruct (apply_mutation_frame σ σ1 x hx hy ly vy m Hh Hy Hx He)
      as [Hy1 Hx1].
    by apply (IH σ1 σ').
Qed.

End independence.

(** ** [clear()] *)

Section clearing.
Context {T : Type}.

Abbreviation heap := (gmap loc (option (@Node T))).
Implicit Types σ : heap.

Lemma clear_exec σ l h fuel :
  m_head l = Some h → live σ h →
  clear (S fuel) l σ = Ok (mkList None (m_alloc l)) (free h σ).
Proof.
  intros Hh Lh. unfold clear. cbn [clear_loop]. unfold empty. rewrite Hh.
  rewrite !bind_unfold. cbn [bool_decide decide_rel negb].
  rewrite bool_decide_eq_true_2 by done. rewrite ret_unfold.
  cbn [negb]. rewrite ret_unfold. rewrite bind_unfold.
  rewrite destroy_live by done. reflexivity.
Qed.

Lemma preserves_free σ h : preserves σ (free h σ) [h].
Proof.
  intros z Hz. assert (h ≠ z) as Hne.
  { intros ->. apply Hz, list_elem_of_here. }
  split.
  - intros Lz. split; [by apply live_free|].
    unfold same_fields. rewrite nxt_free, prv_free, dat_free.
    by rewrite !decide_False.
  - by apply freed_free.
Qed.

End clearing.

(** * The claims of the specification *)

Section claims_queries.

Abbreviation heapZ := (gmap loc (option (@Node Z))).
Implicit Types σ : heapZ.

(** C1 (the code departs from the claim). [empty()] does not test the links
    of the sentinel: on every list whose head pointer is not null it returns
    true. On the list built by [list<int> l; l.push_back(1);] it returns true
    although [size()] is 1 and neither link of the sentinel points to the
    sentinel. *)
Theorem empty_true_with_elements :
  (∀ σ h a, empty (mkList (Some h) a) σ = Ok true σ) ∧
  from_empty_store
    (l ← list_default 0%Z;
     push_back l 1%Z;;
     e ← empty l;
     n ← size 5 l;
     hn ← get_next (m_head l);
     hp ← get_prev (m_head l);
     mret (e, n, bool_decide (hn = m_head l), bool_decide (hp = m_head l)))
  = inl (true, 1, false, false).
Proof.
  split; [reflexivity|]. vm_compute. reflexivity.
Qed.

(** C2 (the code departs from the claim). [front()] and [back()] return an
    empty optional on every list whose head pointer is not null, because they
    ask [empty()] first; on the list holding 7 and 8 both are empty. *)
Theorem front_back_empty_optional_with_elements :
  (∀ σ h a, front (mkList (Some h) a) σ = Ok None σ ∧
            back (mkList (Some h) a) σ = Ok None σ) ∧
  from_empty_store
    (l ← list_default 0%Z;
     push_back l 7%Z;;
     push_back l 8%Z;;
     f ← front l;
     b ← back l;
     vs ← elements 5 l;
     mret (f, b, vs))
  = inl (None, None, [7%Z; 8%Z]).
Proof.
  split; [by split|]. vm_compute. reflexivity.
Qed.

(** C4 (the code departs from the claim). After [push_back(1); push_back(2);
    push_front(0);] on an empty list of integers the sequence is [0,1,2] and
    [size()] is 3, but [front()] and [back()] return empty optionals instead
    of references to 0 and 2. *)
Theorem push_scenario_front_back_empty :
  from_empty_store
    (l ← list_default 0%Z;
     push_back l 1%Z;;
     push_back l 2%Z;;
     push_front l 0%Z;;
     vs ← elements 5 l;
     n ← size 5 l;
     f ← front l;
     b ← back l;
     mret (vs, n, f, b))
  = inl ([0%Z; 1%Z; 2%Z], 3, None, None).
Proof. vm_compute. reflexivity. Qed.

End claims_queries.

(** C3 (the code departs from the claim). [clear()] removes no element:
    its loop [while (not empty()) pop_front()] never runs, because [empty()]
    is true on every list with a head (C1). It then destroys and deallocates
    the sentinel and sets the head pointer to null. So on every well-formed
    list, [clear()] returns with every element node still allocated and
    holding its value, although it is documented as deallocating all nodes;
    no sentinel remains, [empty()] and [size()] on the cleared list are
    undefined, and a [push_back] fails its assertion. The list holding 1 is
    an instance: after [clear()] the node holding 1 can still be read. *)
Theorem clear_removes_no_element :
  (∀ (T : Type) (σ : gmap loc (option (@Node T))) l h ls (vs : list T) fuel,
     m_head l = Some h → repr σ h ls vs →
     ∃ l' σ', clear (S fuel) l σ = Ok l' σ' ∧
       m_head l' = None ∧ freed σ' h ∧
       Forall2 (λ x v, live σ' x ∧ dat σ' x = Some v) ls vs ∧
       empty l' σ' = Fault Undefined ∧
       size (S fuel) l' σ' = Fault Undefined ∧
       (∀ v, push_back l' v σ' = Fault AssertFailed)) ∧
  from_empty_store
    (l ← list_default 0%Z; push_back l 1%Z;;
     b ← begin l;
     l' ← clear 5 l;
     v ← Iterator_deref b;
     mret (m_head l', v)) = inl (None, 1%Z) ∧
  from_empty_store
    (l ← list_default 0%Z; push_back l 1%Z;;
     clear 5 l;; load (m_head l)) = inr Undefined ∧
  from_empty_store
    (l ← list_default 0%Z; push_back l 1%Z;;
     l' ← clear 5 l; empty l') = inr Undefined ∧
  from_empty_store
    (l ← list_default 0%Z; push_back l 1%Z;;
     l' ← clear 5 l; size 5 l') = inr Undefined ∧
  from_empty_store
    (l ← list_default 0%Z; push_back l 1%Z;;
     l' ← clear 5 l; push_back l' 2%Z) = inr AssertFailed.
Proof.
  split; [|repeat split; vm_compute; reflexivity].
  intros T σ l h ls vs fuel Hh [Hr Hd].
  assert (live σ h) as Lh.
  { eapply ring_live; [done | apply list_elem_of_here]. }
  exists (mkList None (m_alloc l)), (free h σ).
  split; [by apply clear_exec|]. split; [done|].
  split; [apply freed_free_eq|]. split; [|done].
  eapply Forall2_impl_elem; [exact Hd|]. intros x v Hx Hv.
  assert (x ∉ [h]) as Hxh.
  { intros ->%list_elem_of_singleton. destruct Hr as [Hnd _].
    by apply NoDup_cons in Hnd as [? _]. }
  destruct (preserves_free σ h x Hxh) as [Hl _].
  destruct (Hl (live_dat _ _ _ Hv)) as (L & _ & _ & Hdat).
  by rewrite Hdat.
Qed.

Lemma clear_removes_no_element_witness :
  (m_head list_012 = Some 0 ∧
   repr heap_012 0 [3; 1; 2] [0%Z; 1%Z; 2%Z]) ∧
  ∃ l' σ', clear 1 list_012 heap_012 = Ok l' σ' ∧
    m_head l' = None ∧ freed σ' 0 ∧
    Forall2 (λ x v, live σ' x ∧ dat σ' x = Some v) [3; 1; 2] [0%Z; 1%Z; 2%Z] ∧
    empty l' σ' = Fault Undefined ∧
    size 1 l' σ' = Fault Undefined ∧
    (∀ v, push_back l' v σ' = Fault AssertFailed).
Proof.
  assert (repr heap_012 0 [3; 1; 2] [0%Z; 1%Z; 2%Z]) as H.
  { apply repr_check_sound. vm_compute. reflexivity. }
  split; [by split|].
  exact (proj1 clear_removes_no_element Z heap_012 list_012 0 [3; 1; 2]
           [0%Z; 1%Z; 2%Z] 0 eq_refl H).
Defined.

Section claims_pop.
Context {T : Type}.

Abbreviation heap := (gmap loc (option (@Node T))).
Implicit Types σ : heap.

(** C10. On a list whose sentinel is linked to itself, [begin()] is the
    sentinel, so [pop_front()] and [pop_back()] hand the sentinel to [erase],
    which deallocates it. Both calls return; the head pointer, unchanged, now
    refers to a deallocated node, and the next use of the list is undefined. *)
Theorem pop_on_empty_list_destroys_sentinel σ l h :
  m_head l = Some h → nxt σ h = Some h → prv σ h = Some h →
  begin l σ = Ok (end_ l) σ ∧
  erase l (end_ l) σ = Ok (end_ l) (unlink h h h σ) ∧
  pop_front l σ = Ok tt (unlink h h h σ) ∧
  pop_back l σ = Ok tt (unlink h h h σ) ∧
  freed (unlink h h h σ) h ∧
  begin l (unlink h h h σ) = Fault Undefined ∧
  ∀ v, push_back l v (unlink h h h σ) = Fault Undefined.
Proof.
  intros Hh Hn Hp.
  destruct (pop_empty_exec σ l h Hh Hn Hp) as (Hb & He & Hpf & Hpb).
  assert (freed (unlink h h h σ) h) as Hf by apply freed_free_eq.
  repeat (split; [done|]). split.
  - unfold begin. rewrite Hh, bind_unfold, get_next_dead; [done|].
    by apply freed_not_live.
  - intros v. unfold push_back, assert_head. rewrite Hh.
    rewrite bool_decide_eq_true_2 by done.
    rewrite bind_unfold, ret_unfold, bind_unfold, create_node_alloc.
    unfold Node_push_back. rewrite bind_unfold, get_prev_dead; [done|].
    apply freed_not_live, freed_alloc, Hf.
Qed.

End claims_pop.

Lemma pop_on_empty_list_destroys_sentinel_witness :
  let σ : gmap loc (option (@Node Z)) := alloc 0%Z ∅ in
  let l := mkList (Some 0) 0 in
  (m_head l = Some 0 ∧ nxt σ 0 = Some 0 ∧ prv σ 0 = Some 0) ∧
  begin l σ = Ok (end_ l) σ ∧
  erase l (end_ l) σ = Ok (end_ l) (unlink 0 0 0 σ) ∧
  pop_front l σ = Ok tt (unlink 0 0 0 σ) ∧
  pop_back l σ = Ok tt (unlink 0 0 0 σ) ∧
  freed (unlink 0 0 0 σ) 0 ∧
  begin l (unlink 0 0 0 σ) = Fault Undefined ∧
  ∀ v, push_back l v (unlink 0 0 0 σ) = Fault Undefined.
Proof.
  intros σ l. split; [by vm_compute|].
  apply (pop_on_empty_list_destroys_sentinel σ l 0); reflexivity.
Defined.

(** C5. [erase(position)] at a real element [x] of a list returns an
    iterator to the node that followed [x]; [x] is deallocated, the other
    elements stay in the ring in their order with their values, and no node
    outside the list is touched. On [0,1,2], [erase(++begin())] leaves [0,2]
    and returns an iterator that dereferences to 2. *)
Theorem erase_unlinks_node :
  (∀ (T : Type) (σ : gmap loc (option (@Node T))) l h l1 x l2 vs1 v vs2 fuel,
     m_head l = Some h →
     repr σ h (l1 ++ x :: l2) (vs1 ++ v :: vs2) → length l1 = length vs1 →
     length (l1 ++ l2) < fuel →
     ∃ s σ', erase l (mkIter (Some x)) σ = Ok (mkIter (Some s)) σ' ∧
             nxt σ x = Some s ∧ head (l2 ++ [h]) = Some s ∧
             freed σ' x ∧
             repr σ' h (l1 ++ l2) (vs1 ++ vs2) ∧
             elements fuel l σ' = Ok (vs1 ++ vs2) σ' ∧
             preserves σ σ' (h :: l1 ++ x :: l2)) ∧
  from_empty_store
    (l ← build_012;
     b ← begin l;
     it ← Iterator_incr b;
     r ← erase l it;
     v ← Iterator_deref r;
     vs ← elements 5 l;
     mret (v, vs))
  = inl (2%Z, [0%Z; 2%Z]).
Proof.
  split; [|vm_compute; reflexivity].
  intros T σ l h l1 x l2 vs1 v vs2 fuel Hh Hrep Hlen Hfuel.
  destruct (erase_spec σ l h l1 x l2 vs1 vs2 v Hrep Hlen)
    as (s & σ' & Hs & He & Hrep' & Hf & Hp).
  exists s, σ'. repeat (split; [done|]).
  destruct Hrep as [Hr _].
  destruct (last_cons_Some h l1) as [p Hl].
  destruct (ring_at _ _ _ _ _ _ _ Hr Hl Hs) as (_ & Hn & _).
  split; [done|]. repeat (split; [done|]).
  split; [|done]. by eapply elements_spec.
Qed.

Lemma erase_unlinks_node_witness :
  (m_head list_012 = Some 0 ∧
   repr heap_012 0 ([3] ++ 1 :: [2]) ([0%Z] ++ 1%Z :: [2%Z]) ∧
   length [3] = length [0%Z] ∧ length ([3] ++ [2]) < 5) ∧
  ∃ s σ', erase list_012 (mkIter (Some 1)) heap_012 = Ok (mkIter (Some s)) σ' ∧
          nxt heap_012 1 = Some s ∧ head ([2] ++ [0]) = Some s ∧
          freed σ' 1 ∧
          repr σ' 0 ([3] ++ [2]) ([0%Z] ++ [2%Z]) ∧
          elements 5 list_012 σ' = Ok ([0%Z] ++ [2%Z]) σ' ∧
          preserves heap_012 σ' (0 :: [3] ++ 1 :: [2]).
Proof.
  assert (repr heap_012 0 ([3] ++ 1 :: [2]) ([0%Z] ++ 1%Z :: [2%Z])) as Hrep.
  { apply repr_check_sound. vm_compute. reflexivity. }
  split.
  - split; [reflexivity|]. split; [exact Hrep|]. split; [reflexivity|].
    simpl. lia.
  - apply (proj1 erase_unlinks_node Z heap_012 list_012 0 [3] 1 [2]
             [0%Z] 1%Z [2%Z] 5); [reflexivity | exact Hrep | reflexivity |].
    simpl. lia.
Defined.

Section claims_invariant.

Abbreviation heapZ := (gmap loc (option (@Node Z))).

(** C7 (the code departs from the claim). With the policy flags of
    [std::allocator], which is the allocator [list] uses, copy assignment
    between two distinct lists is undefined behaviour for every pair of
    lists: the destination is cleared first, which nulls its head pointer,
    and [__M_assign] then dereferences it. [a = b] for an empty [a] and [b]
    holding 1 is an instance. Under a propagating policy the same code
    appends instead of replacing: [5] assigned from [1] becomes [5,1]. *)
Theorem copy_assign_undefined :
  (∀ (T : Type) (σ : gmap loc (option (@Node T))) fuel this rhs,
     copy_assign std_allocator_traits (S fuel) this rhs σ = Fault Undefined) ∧
  from_empty_store
    (a ← list_default 0%Z;
     b ← list_default 0%Z;
     push_back b 1%Z;;
     a' ← copy_assign std_allocator_traits 5 a b;
     elements 5 a')
  = inr Undefined ∧
  from_empty_store
    (a ← list_default 0%Z;
     push_back a 5%Z;;
     b ← list_default 0%Z;
     push_back b 1%Z;;
     a' ← copy_assign (mkTraits true true false true) 5 a b;
     elements 5 a')
  = inl [5%Z; 1%Z].
Proof.
  split; [|split; vm_compute; reflexivity].
  intros T σ fuel this rhs. apply copy_assign_std_undefined.
Qed.

(** C8. Copy construction of a well-formed list returns a list with a
    sentinel of its own, allocated by the call, that reads as the same
    sequence; the call changes no node that existed before. Afterwards every
    mutation of either list returns and leaves what the other reads as
    unchanged, and so does every run of mutations that returns. *)
Theorem copy_is_independent :
  (∀ (T : Type) (T0 : T) (σ : gmap loc (option (@Node T))) a va fuel,
     holds σ a va → length va < fuel →
     ∃ b σ1 hb,
       list_copy T0 fuel a σ = Ok b σ1 ∧
       m_head b = Some hb ∧ m_head b ≠ m_head a ∧
       ¬ live σ hb ∧ live σ1 hb ∧
       preserves σ σ1 [] ∧
       elements fuel b σ1 = Ok va σ1 ∧
       elements fuel a σ1 = Ok va σ1 ∧
       (∀ m, ∃ σ2, apply_mutation b m σ1 = Ok tt σ2 ∧
                   elements fuel a σ2 = Ok va σ2) ∧
       (∀ m, ∃ σ2, apply_mutation a m σ1 = Ok tt σ2 ∧
                   elements fuel b σ2 = Ok va σ2) ∧
       (∀ ms σ2, run_mutations b ms σ1 = Ok tt σ2 →
                 elements fuel a σ2 = Ok va σ2) ∧
       (∀ ms σ2, run_mutations a ms σ1 = Ok tt σ2 →
                 elements fuel b σ2 = Ok va σ2)) ∧
  from_empty_store
    (a ← build_012;
     b ← list_copy 0%Z 5 a;
     run_mutations b [MPushBack 9%Z; MPopFront; MErase 0];;
     run_mutations a [MPushFront 7%Z; MPopBack];;
     va ← elements 9 a;
     vb ← elements 9 b;
     mret (va, vb))
  = inl ([7%Z; 0%Z; 1%Z], [2%Z; 9%Z]).
Proof.
  split; [|vm_compute; reflexivity].
  intros T T0 σ a va fuel (ha & la & Hh & Hrep) Hfuel.
  pose proof (repr_length _ _ _ _ Hrep) as Hlen.
  rewrite <- Hlen in Hfuel.
  destruct (list_copy_spec T0 σ a ha la va fuel Hh Hrep Hfuel)
    as (σ1 & lb & He & Hb & Ha & Hdisj & Hp).
  set (hb := fresh (dom σ)) in *.
  assert (length lb < fuel) as Hfuelb.
  { rewrite (repr_length _ _ _ _ Hb). lia. }
  exists (mkList (Some hb) (m_alloc a)), σ1, hb.
  split; [done|]. split; [done|]. split.
  { rewrite Hh. cbn [m_head]. intros [= E].
    eapply (Hdisj hb); [apply list_elem_of_here|].
    rewrite E. apply list_elem_of_here. }
  split; [apply fresh_not_live|].
  split. { eapply ring_live; [apply Hb | apply list_elem_of_here]. }
  split; [done|].
  split; [by apply (elements_spec σ1 (mkList (Some hb) (m_alloc a)) hb lb va fuel eq_refl)|].
  split; [by apply (elements_spec σ1 a ha la va fuel Hh)|].
  split.
  { intros m.
    destruct (apply_mutation_ring σ1 (mkList (Some hb) (m_alloc a)) hb lb va m
                eq_refl Hb) as (σ2 & Hm & Hpm & _).
    exists σ2. split; [done|].
    apply (elements_spec σ2 a ha la va fuel Hh); [|done].
    eapply preserves_repr; [exact Hpm | | exact Ha].
    intros z Hz Hzb. by apply (Hdisj z). }
  split.
  { intros m.
    destruct (apply_mutation_ring σ1 a ha la va m Hh Ha) as (σ2 & Hm & Hpm & _).
    exists σ2. split; [done|].
    apply (elements_spec σ2 (mkList (Some hb) (m_alloc a)) hb lb va fuel eq_refl);
      [|done].
    eapply preserves_repr; [exact Hpm | exact Hdisj | exact Hb]. }
  split.
  - intros ms σ2 Hrun. apply (elements_spec σ2 a ha la va fuel Hh); [|done].
    apply (run_mutations_frame (mkList (Some hb) (m_alloc a)) hb ha la va
             ms σ1 σ2 eq_refl Ha); [|done].
    right. exists lb, va. by split.
  - intros ms σ2 Hrun.
    apply (elements_spec σ2 (mkList (Some hb) (m_alloc a)) hb lb va fuel eq_refl); [|done].
    apply (run_mutations_frame a ha hb lb va ms σ1 σ2 Hh Hb); [|done].
    right. exists la, va. split; [done|].
    intros z Hz Hzb. by apply (Hdisj z).
Qed.

Lemma copy_is_independent_witness :
  (holds heap_012 list_012 [0%Z; 1%Z; 2%Z] ∧ length [0%Z; 1%Z; 2%Z] < 5) ∧
  ∃ b σ1 hb,
    list_copy 0%Z 5 list_012 heap_012 = Ok b σ1 ∧
    m_head b = Some hb ∧ m_head b ≠ m_head list_012 ∧
    ¬ live heap_012 hb ∧ live σ1 hb ∧
    preserves heap_012 σ1 [] ∧
    elements 5 b σ1 = Ok [0%Z; 1%Z; 2%Z] σ1 ∧
    elements 5 list_012 σ1 = Ok [0%Z; 1%Z; 2%Z] σ1 ∧
    (∀ m, ∃ σ2, apply_mutation b m σ1 = Ok tt σ2 ∧
                elements 5 list_012 σ2 = Ok [0%Z; 1%Z; 2%Z] σ2) ∧
    (∀ m, ∃ σ2, apply_mutation list_012 m σ1 = Ok tt σ2 ∧
                elements 5 b σ2 = Ok [0%Z; 1%Z; 2%Z] σ2) ∧
    (∀ ms σ2, run_mutations b ms σ1 = Ok tt σ2 →
              elements 5 list_012 σ2 = Ok [0%Z; 1%Z; 2%Z] σ2) ∧
    (∀ ms σ2, run_mutations list_012 ms σ1 = Ok tt σ2 →
              elements 5 b σ2 = Ok [0%Z; 1%Z; 2%Z] σ2).
Proof.
  assert (holds heap_012 list_012 [0%Z; 1%Z; 2%Z]) as H.
  { exists 0, [3; 1; 2]. split; [reflexivity|].
    apply repr_check_sound. vm_compute. reflexivity. }
  assert (length [0%Z; 1%Z; 2%Z] < 5) as Hl by (simpl; lia).
  split; [by split|].
  exact (proj1 copy_is_independent Z 0%Z heap_012 list_012
           [0%Z; 1%Z; 2%Z] 5 H Hl).
Defined.

End claims_invariant.

(** * Further properties of the code *)

(** ** [clear()], the state it leaves, and the destructor *)

Section after_clear.
Context {T : Type}.
Variable T0 : T.

Abbreviation heap := (gmap loc (option (@Node T))).
Implicit Types σ : heap.

(** X1. [clear()] on a well-formed list deallocates the sentinel and nothing
    else: every element node stays allocated with its value and its links,
    while the head pointer of the list becomes null. *)
Theorem clear_leaks_elements σ l h ls (vs : list T) fuel :
  m_head l = Some h → repr σ h ls vs →
  ∃ σ', clear (S fuel) l σ = Ok (mkList None (m_alloc l)) σ' ∧
        freed σ' h ∧
        preserves σ σ' [h] ∧
        Forall2 (λ x v, live σ' x ∧ dat σ' x = Some v ∧
                        nxt σ' x = nxt σ x ∧ prv σ' x = prv σ x) ls vs.
Proof.
  intros Hh [Hr Hd].
  assert (live σ h) as Lh.
  { eapply ring_live; [done | apply list_elem_of_here]. }
  exists (free h σ). split; [by apply clear_exec|].
  split; [apply freed_free_eq|]. split; [apply preserves_free|].
  eapply Forall2_impl_elem; [exact Hd|]. intros x v Hx Hv.
  assert (x ≠ h) as Hne.
  { intros ->. destruct Hr as [Hnd _]. by apply NoDup_cons in Hnd as [? _]. }
  destruct (preserves_free σ h x) as [Hl _].
  { by intros ->%list_elem_of_singleton. }
  destruct (Hl (live_dat _ _ _ Hv)) as (L & Hn & Hp & Hdat).
  by rewrite Hdat.
Qed.

(** X2. After [clear()] the list object cannot be used: [empty()],
    [size()], [begin()], [front()], [back()], [pop_front()], [pop_back()],
    copy construction from it, a second [clear()] and the destructor are
    all undefined, and [push_back]/[push_front] fail their assertion. *)
Theorem cleared_list_is_unusable σ l h fuel :
  m_head l = Some h → live σ h →
  ∃ l' σ', clear (S fuel) l σ = Ok l' σ' ∧
    empty l' σ' = Fault Undefined ∧
    size (S fuel) l' σ' = Fault Undefined ∧
    begin l' σ' = Fault Undefined ∧
    front l' σ' = Fault Undefined ∧
    back l' σ' = Fault Undefined ∧
    pop_front l' σ' = Fault Undefined ∧
    pop_back l' σ' = Fault Undefined ∧
    list_copy T0 (S fuel) l' σ' = Fault Undefined ∧
    clear (S fuel) l' σ' = Fault Undefined ∧
    list_destroy (S fuel) l' σ' = Fault Undefined ∧
    (∀ v, push_back l' v σ' = Fault AssertFailed) ∧
    (∀ v, push_front l' v σ' = Fault AssertFailed).
Proof.
  intros Hh Lh. exists (mkList None (m_alloc l)), (free h σ).
  split; [by apply clear_exec|]. repeat split.
Qed.

End after_clear.

Lemma clear_leaks_elements_witness :
  (m_head list_012 = Some 0 ∧
   repr heap_012 0 [3; 1; 2] [0%Z; 1%Z; 2%Z]) ∧
  ∃ σ', clear 1 list_012 heap_012 = Ok (mkList None 0) σ' ∧
        freed σ' 0 ∧
        preserves heap_012 σ' [0] ∧
        Forall2 (λ x v, live σ' x ∧ dat σ' x = Some v ∧
                        nxt σ' x = nxt heap_012 x ∧ prv σ' x = prv heap_012 x)
                [3; 1; 2] [0%Z; 1%Z; 2%Z].
Proof.
  assert (repr heap_012 0 [3; 1; 2] [0%Z; 1%Z; 2%Z]) as H.
  { apply repr_check_sound. vm_compute. reflexivity. }
  split; [by split|].
  exact (clear_leaks_elements heap_012 list_012 0 [3; 1; 2]
           [0%Z; 1%Z; 2%Z] 0 eq_refl H).
Defined.

Lemma cleared_list_is_unusable_witness :
  (m_head list_012 = Some 0 ∧ live heap_012 0) ∧
  ∃ l' σ', clear 1 list_012 heap_012 = Ok l' σ' ∧
    empty l' σ' = Fault Undefined ∧
    size 1 l' σ' = Fault Undefined ∧
    begin l' σ' = Fault Undefined ∧
    front l' σ' = Fault Undefined ∧
    back l' σ' = Fault Undefined ∧
    pop_front l' σ' = Fault Undefined ∧
    pop_back l' σ' = Fault Undefined ∧
    list_copy 0%Z 1 l' σ' = Fault Undefined ∧
    clear 1 l' σ' = Fault Undefined ∧
    list_destroy 1 l' σ' = Fault Undefined ∧
    (∀ v, push_back l' v σ' = Fault AssertFailed) ∧
    (∀ v, push_front l' v σ' = Fault AssertFailed).
Proof.
  assert (live heap_012 0) as L by (vm_compute; eauto).
  split; [by split|].
  exact (cleared_list_is_unusable 0%Z heap_012 list_012 0 0 eq_refl L).
Defined.

(** ** Iterators: stepping back and forth, reverse traversal *)

Section iterators.
Context {T : Type}.

Abbreviation heap := (gmap loc (option (@Node T))).
Implicit Types σ : heap.

Lemma Iterator_incr_live σ x :
  live σ x → Iterator_incr (mkIter (Some x)) σ = Ok (mkIter (nxt σ x)) σ.
Proof.
  intros L. unfold Iterator_incr. cbn [m_cursor].
  by rewrite bind_unfold, get_next_live.
Qed.

Lemma Iterator_decr_live σ x :
  live σ x → Iterator_decr (mkIter (Some x)) σ = Ok (mkIter (prv σ x)) σ.
Proof.
  intros L. unfold Iterator_decr. cbn [m_cursor].
  by rewrite bind_unfold, get_prev_live.
Qed.

(** X3. At every position of a well-formed list, [end()] included,
    [operator--] undoes [operator++] and [operator++] undoes [operator--];
    neither changes the store. *)
Theorem incr_decr_inverse σ h ls x :
  ring σ h ls → x ∈ h :: ls →
  (it ← Iterator_incr (mkIter (Some x)); Iterator_decr it) σ
    = Ok (mkIter (Some x)) σ ∧
  (it ← Iterator_decr (mkIter (Some x)); Iterator_incr it) σ
    = Ok (mkIter (Some x)) σ.
Proof.
  intros Hr Hx.
  destruct (ring_neighbours _ _ _ _ Hr Hx)
    as (p & s & Hp & Hs & Pin & Sin & Hpn & Hsp).
  assert (live σ x) by by eapply ring_live.
  assert (live σ p) by by eapply ring_live.
  assert (live σ s) by by eapply ring_live.
  split.
  - rewrite bind_unfold, Iterator_incr_live, Hs by done.
    by rewrite Iterator_decr_live, Hsp.
  - rewrite bind_unfold, Iterator_decr_live, Hp by done.
    by rewrite Iterator_incr_live, Hpn.
Qed.

Lemma collect_reverse_spec σ h l1 : ∀ l2 (vs1 vs2 : list T) fuel t0,
  repr σ h (l1 ++ l2) (vs1 ++ vs2) → length l1 = length vs1 →
  head ((l1 ++ l2) ++ [h]) = Some t0 →
  length l1 < fuel →
  collect_reverse fuel (mkIter (head (l2 ++ [h]))) (mkIter (Some t0)) σ
  = Ok (reverse vs1) σ.
Proof.
  induction l1 as [|x l1 IH] using rev_ind;
    intros l2 vs1 vs2 fuel t0 Hrep Hlen Ht0 Hfuel.
  - destruct fuel as [|fuel]; [simpl in Hfuel; lia|].
    destruct vs1; [|done]. cbn [collect_reverse app] in *.
    unfold Iterator_eq. cbn [m_cursor].
    by rewrite Ht0, bool_decide_eq_true_2.
  - destruct fuel as [|fuel]; [rewrite length_app in Hfuel; simpl in Hfuel; lia|].
    rewrite length_app in Hlen, Hfuel. simpl in Hlen, Hfuel.
    destruct vs1 as [|v vs1 _] using rev_ind; [simpl in Hlen; lia|].
    rewrite length_app in Hlen. simpl in Hlen.
    rewrite <- !app_assoc in Hrep. cbn [app] in Hrep.
    pose proof Hrep as [Hr Hd].
    apply Forall2_app_inv in Hd as [_ Hd]; [|lia].
    apply Forall2_cons in Hd as [Hv _].
    destruct (head_snoc_Some l2 h) as [c Hc].
    destruct (last_cons_Some h l1) as [p Hp].
    destruct (ring_at _ _ _ _ _ _ _ Hr Hp Hc) as (_ & _ & _ & Hcx).
    assert (c ≠ t0) as Hne.
    { intros ->. destruct Hr as [Hnd _].
      apply head_elem in Hc.
      rewrite <- !app_assoc in Ht0. cbn [app] in Ht0.
      apply NoDup_cons in Hnd as [Hh Hnd].
      apply NoDup_app in Hnd as (_ & Hd12 & Hnd2).
      apply NoDup_cons in Hnd2 as [Hx2 _].
      rewrite elem_of_app, list_elem_of_singleton in Hc.
      destruct l1 as [|y l1]; cbn [app head] in Ht0; injection Ht0 as <-.
      - destruct Hc as [Hc | ->]; [done|].
        apply Hh. rewrite elem_of_app, elem_of_cons. tauto.
      - destruct Hc as [Hc | ->].
        + apply (Hd12 y); [apply list_elem_of_here|].
          by apply list_elem_of_further.
        + apply Hh. rewrite elem_of_app. left. apply list_elem_of_here. }
    cbn [collect_reverse]. unfold Iterator_eq. cbn [m_cursor].
    rewrite Hc, bool_decide_eq_false_2 by congruence.
    assert (live σ c) as Lc by by eapply live_prv.
    rewrite bind_unfold, Iterator_decr_live, Hcx by done. cbv beta iota.
    unfold Iterator_deref. cbn [m_cursor].
    rewrite bind_unfold, (get_data_live _ _ _ Hv). cbv beta iota.
    rewrite bind_unfold, Iterator_decr_live, Hcx by done. cbv beta iota.
    rewrite bind_unfold.
    assert (collect_reverse fuel (mkIter (head ((x :: l2) ++ [h])))
              (mkIter (Some t0)) σ = Ok (reverse vs1) σ) as IH'.
    { apply (IH (x :: l2) vs1 (v :: vs2) fuel t0 Hrep); [lia | | lia].
      rewrite <- !app_assoc in Ht0. rewrite <- !app_assoc. exact Ht0. }
    cbn [app head] in IH'. rewrite IH'. by rewrite reverse_snoc.
Qed.

(** X4. Reading a well-formed list through [rbegin()] and [rend()] yields
    its sequence reversed and leaves the store as it was. *)
Theorem reverse_traversal σ l (vs : list T) fuel :
  holds σ l vs → length vs < fuel →
  elements_reverse fuel l σ = Ok (reverse vs) σ.
Proof.
  intros (h & ls & Hh & Hrep) Hfuel. pose proof Hrep as [Hr _].
  destruct (ring_head _ _ _ Hr) as (p & s & _ & Hs & _ & Hn & _).
  unfold elements_reverse, rend, rbegin. rewrite Hh.
  rewrite !bind_unfold, get_next_live by by eapply live_nxt.
  rewrite Hn. cbv beta iota. rewrite ret_unfold.
  apply (collect_reverse_spec σ h ls [] vs [] fuel s).
  - by rewrite !app_nil_r.
  - by eapply repr_length.
  - by rewrite app_nil_r.
  - by rewrite (repr_length _ _ _ _ Hrep).
Qed.

End iterators.

Lemma incr_decr_inverse_witness :
  (ring heap_012 0 [3; 1; 2] ∧ 0 ∈ 0 :: [3; 1; 2]) ∧
  (it ← Iterator_incr (mkIter (Some 0)); Iterator_decr it) heap_012
    = Ok (mkIter (Some 0)) heap_012 ∧
  (it ← Iterator_decr (mkIter (Some 0)); Iterator_incr it) heap_012
    = Ok (mkIter (Some 0)) heap_012.
Proof.
  assert (repr heap_012 0 [3; 1; 2] [0%Z; 1%Z; 2%Z]) as [H _].
  { apply repr_check_sound. vm_compute. reflexivity. }
  assert (0 ∈ 0 :: [3; 1; 2]) as Hin by apply list_elem_of_here.
  split; [by split|].
  exact (incr_decr_inverse heap_012 0 [3; 1; 2] 0 H Hin).
Defined.

Lemma reverse_traversal_witness :
  (holds heap_012 list_012 [0%Z; 1%Z; 2%Z] ∧ length [0%Z; 1%Z; 2%Z] < 4) ∧
  elements_reverse 4 list_012 heap_012
  = Ok (reverse [0%Z; 1%Z; 2%Z]) heap_012.
Proof.
  assert (holds heap_012 list_012 [0%Z; 1%Z; 2%Z]) as H.
  { exists 0, [3; 1; 2]. split; [reflexivity|].
    apply repr_check_sound. vm_compute. reflexivity. }
  assert (length [0%Z; 1%Z; 2%Z] < 4) as Hl by (simpl; lia).
  split; [by split|].
  exact (reverse_traversal heap_012 list_012 [0%Z; 1%Z; 2%Z] 4 H Hl).
Defined.

(** ** Mutations as operations on sequences *)

Section refinement.
Context {T : Type}.

Abbreviation heap := (gmap loc (option (@Node T))).
Implicit Types σ : heap.

Lemma advance_index_snoc σ h l2 : ∀ l1 k x,
  ring σ h (l1 ++ l2) → (l2 ++ [h]) !! k = Some x →
  advance k (mkIter (head (l2 ++ [h]))) σ = Ok (mkIter (Some x)) σ.
Proof.
  induction l2 as [|y l2 IH]; intros l1 k x Hr Hk.
  - destruct k as [|k]; [|done]. simpl in Hk. by injection Hk as ->.
  - destruct k as [|k]; simpl in Hk.
    + by injection Hk as ->.
    + cbn [advance app head].
      rewrite bind_unfold, (Iterator_incr_ring _ _ _ _ _ Hr). cbv beta iota.
      apply (IH (l1 ++ [y])); [by rewrite <- app_assoc | done].
Qed.

Lemma position_at σ l h ls k x :
  m_head l = Some h → ring σ h ls → (ls ++ [h]) !! k = Some x →
  ∃ t, begin l σ = Ok (mkIter (Some t)) σ ∧
       advance k (mkIter (Some t)) σ = Ok (mkIter (Some x)) σ.
Proof.
  intros Hh Hr Hk. destruct (head_snoc_Some ls h) as [t Ht].
  exists t. rewrite (begin_ring _ _ _ _ Hh Hr), Ht. split; [done|].
  rewrite <- Ht. by apply (advance_index_snoc σ h ls []).
Qed.

Lemma head_drop_snoc (ls : list loc) h k :
  k ≤ length ls → head (drop k ls ++ [h]) = (ls ++ [h]) !! k.
Proof.
  intros Hk. rewrite head_lookup.
  rewrite <- (take_drop k ls) at 2. rewrite <- app_assoc.
  rewrite (lookup_app_r (take k ls)) by (rewrite length_take; lia).
  rewrite length_take. by replace (k - k `min` length ls) with 0 by lia.
Qed.

Lemma last_take_S (ls : list loc) h k x :
  ls !! k = Some x → last (h :: take (S k) ls) = Some x.
Proof.
  intros Hk. rewrite (take_S_r _ _ _ Hk), app_comm_cons. apply last_snoc.
Qed.

(** An in-range mutation within the contract returns and changes the
    sequence as [mutate] says. *)
Lemma apply_mutation_effect σ l (vs : list T) m :
  holds σ l vs → in_contract (length vs) m → in_range (length vs) m →
  ∃ σ', apply_mutation l m σ = Ok tt σ' ∧ holds σ' l (mutate m vs).
Proof.
  intros (h & ls & Hh & Hrep) Hc Hrg. pose proof Hrep as [Hr Hd].
  pose proof (repr_length _ _ _ _ Hrep) as Hlen.
  destruct m as [v | v | | | k | k v | k v];
    cbn [apply_mutation mutate in_contract in_range] in *.
  - destruct (push_back_spec σ l h ls vs v Hh Hrep) as (σ' & He & Hr' & _).
    exists σ'. split; [done|]. by eexists _, _.
  - destruct (push_front_spec σ l h ls vs v Hh Hrep) as (σ' & He & Hr' & _).
    exists σ'. split; [done|]. by eexists _, _.
  - destruct vs as [|v vs]; [simpl in Hc; lia|].
    destruct ls as [|x ls]; [done|].
    destruct (pop_front_spec σ l h x ls vs v Hh Hrep) as (σ' & He & Hr' & _).
    exists σ'. split; [done|]. by eexists _, _.
  - destruct vs as [|v vs _] using rev_ind; [simpl in Hc; lia|].
    destruct ls as [|x ls _] using rev_ind.
    { rewrite length_app in Hlen. simpl in Hlen. lia. }
    rewrite !length_app in Hlen. simpl in Hlen.
    destruct (pop_back_spec σ l h x ls vs v Hh Hrep) as (σ' & He & Hr' & _);
      [lia|].
    exists σ'. split; [done|]. rewrite removelast_last. by eexists _, _.
  - rewrite <- Hlen in Hc.
    destruct (lookup_lt_is_Some_2 ls k Hc) as [x Hx].
    destruct (lookup_lt_is_Some_2 vs k) as [v Hv]; [lia|].
    destruct (position_at σ l h ls k x Hh Hr) as (t & Hb & Hadv).
    { by rewrite lookup_app_l. }
    rewrite bind_unfold, Hb. cbv beta iota.
    rewrite bind_unfold, Hadv. cbv beta iota.
    rewrite <- (take_drop_middle ls k x Hx) in Hrep.
    rewrite <- (take_drop_middle vs k v Hv) in Hrep.
    destruct (erase_spec σ l h _ x _ _ _ v Hrep) as (s & σ' & _ & He & Hr' & _).
    { rewrite !length_take. lia. }
    exists σ'. split; [by rewrite bind_unfold, He|].
    rewrite delete_take_drop. by eexists _, _.
  - rewrite <- Hlen in Hrg.
    destruct (lookup_lt_is_Some_2 (ls ++ [h]) k) as [x Hx].
    { rewrite length_app. simpl. lia. }
    destruct (position_at σ l h ls k x Hh Hr Hx) as (t & Hb & Hadv).
    rewrite bind_unfold, Hb. cbv beta iota.
    rewrite bind_unfold, Hadv. cbv beta iota.
    rewrite <- (take_drop k ls), <- (take_drop k vs) in Hrep.
    destruct (insert_before_spec σ l h _ _ _ _ v x Hrep) as (σ' & He & Hr' & _).
    { rewrite !length_take. lia. }
    { by rewrite head_drop_snoc. }
    exists σ'. split; [done|]. by eexists _, _.
  - rewrite <- Hlen in Hrg. case_decide as Hk.
    + rewrite <- Hlen in Hk.
      destruct (lookup_lt_is_Some_2 ls k Hk) as [x Hx].
      destruct (position_at σ l h ls k x Hh Hr) as (t & Hb & Hadv).
      { by rewrite lookup_app_l. }
      rewrite bind_unfold, Hb. cbv beta iota.
      rewrite bind_unfold, Hadv. cbv beta iota.
      rewrite <- (take_drop (S k) ls), <- (take_drop (S k) vs) in Hrep.
      destruct (insert_after_spec σ l h _ _ _ _ v x Hrep) as (σ' & He & Hr' & _).
      { rewrite !length_take. lia. }
      { by apply last_take_S. }
      exists σ'. split; [done|]. by eexists _, _.
    + assert (k = length ls) as -> by lia.
      destruct (position_at σ l h ls (length ls) h Hh Hr) as (t & Hb & Hadv).
      { rewrite lookup_app_r by lia.
        by replace (length ls - length ls) with 0 by lia. }
      rewrite bind_unfold, Hb. cbv beta iota.
      rewrite bind_unfold, Hadv. cbv beta iota.
      destruct (insert_after_spec σ l h [] ls [] vs v h Hrep)
        as (σ' & He & Hr' & _); [done..|].
      exists σ'. split; [done|]. by eexists _, _.
Qed.

(** X5. Each single call within its contract, at a position in
    [[begin(), end()]], returns and changes the sequence the list reads as
    exactly as the corresponding operation on sequences: append, prepend,
    drop the first, drop the last, delete the element at the position,
    insert before the position, insert after the position. *)
Theorem mutation_refines_sequence σ l (vs : list T) m fuel :
  holds σ l vs → in_contract (length vs) m → in_range (length vs) m →
  length (mutate m vs) < fuel →
  ∃ σ', apply_mutation l m σ = Ok tt σ' ∧
        holds σ' l (mutate m vs) ∧
        elements fuel l σ' = Ok (mutate m vs) σ' ∧
        size fuel l σ' = Ok (length (mutate m vs)) σ'.
Proof.
  intros H Hc Hrg Hfuel.
  destruct (apply_mutation_effect σ l vs m H Hc Hrg) as (σ' & He & H').
  exists σ'. split; [done|]. split; [done|].
  destruct H' as (h & ls & Hh & Hrep).
  pose proof (repr_length _ _ _ _ Hrep) as Hlen.
  split.
  - apply (elements_spec σ' l h ls); [done | done | lia].
  - rewrite <- Hlen. apply (size_spec σ' l h ls); [done | apply Hrep | lia].
Qed.

Lemma delete_inserted (vs : list T) k v :
  k ≤ length vs → delete k (take k vs ++ v :: drop k vs) = vs.
Proof.
  intros Hk. rewrite <- (length_take_le vs k) at 1 by done.
  by rewrite delete_middle, take_drop.
Qed.

Lemma run_mutations_cons σ l (m : @mutation T) ms :
  run_mutations l (m :: ms) σ
  = match apply_mutation l m σ with
    | Ok _ σ' => run_mutations l ms σ'
    | Fault f => Fault f
    end.
Proof. reflexivity. Qed.

(** X6. On a well-formed list, [push_back(v); pop_back()],
    [push_front(v); pop_front()] and, at a position [k] in
    [[begin(), end()]], [insert_before(pos, v); erase(pos')] with [pos'] the
    position of the inserted element, all return and leave the list reading
    as before. *)
Theorem push_pop_round_trip σ l (vs : list T) v k :
  holds σ l vs → k ≤ length vs →
  (∃ σ', run_mutations l [MPushBack v; MPopBack] σ = Ok tt σ' ∧ holds σ' l vs) ∧
  (∃ σ', run_mutations l [MPushFront v; MPopFront] σ = Ok tt σ' ∧ holds σ' l vs) ∧
  (∃ σ', run_mutations l [MInsertBefore k v; MErase k] σ = Ok tt σ' ∧
         holds σ' l vs).
Proof.
  intros H Hk. split; [|split].
  - destruct (apply_mutation_effect σ l vs (MPushBack v) H I I) as (σ1 & E1 & H1).
    destruct (apply_mutation_effect σ1 l _ MPopBack H1) as (σ2 & E2 & H2).
    { cbn [mutate in_contract]. rewrite length_app. simpl. lia. }
    { exact I. }
    exists σ2. rewrite run_mutations_cons, E1, run_mutations_cons, E2.
    split; [done|]. cbn [mutate] in H2. by rewrite removelast_last in H2.
  - destruct (apply_mutation_effect σ l vs (MPushFront v) H I I) as (σ1 & E1 & H1).
    destruct (apply_mutation_effect σ1 l _ MPopFront H1) as (σ2 & E2 & H2).
    { cbn [mutate in_contract length]. lia. }
    { exact I. }
    exists σ2. rewrite run_mutations_cons, E1, run_mutations_cons, E2.
    by split.
  - destruct (apply_mutation_effect σ l vs (MInsertBefore k v) H I Hk)
      as (σ1 & E1 & H1).
    destruct (apply_mutation_effect σ1 l _ (MErase k) H1) as (σ2 & E2 & H2).
    { cbn [mutate in_contract]. rewrite length_app, length_take. simpl. lia. }
    { exact I. }
    exists σ2. rewrite run_mutations_cons, E1, run_mutations_cons, E2.
    split; [done|]. cbn [mutate] in H2. by rewrite delete_inserted in H2.
Qed.

End refinement.

(** ** Range and count forms of [erase] and [insert] *)

Section ranges.
Context {T : Type}.

Abbreviation heap := (gmap loc (option (@Node T))).
Implicit Types σ : heap.

Lemma erase_range_spec l h l2 : ∀ σ l1 l3 (v1 v2 v3 : list T) fuel,
  repr σ h (l1 ++ l2 ++ l3) (v1 ++ v2 ++ v3) →
  length l1 = length v1 → length l2 = length v2 → length l2 < fuel →
  ∃ σ', erase_range fuel l (mkIter (head ((l2 ++ l3) ++ [h])))
          (mkIter (head (l3 ++ [h]))) σ
        = Ok (mkIter (head (l3 ++ [h]))) σ' ∧
        repr σ' h (l1 ++ l3) (v1 ++ v3) ∧
        Forall (freed σ') l2 ∧
        preserves σ σ' (h :: l1 ++ l2 ++ l3).
Proof.
  induction l2 as [|x l2 IH]; intros σ l1 l3 v1 v2 v3 fuel Hrep H1 H2 Hfuel.
  - destruct fuel as [|fuel]; [simpl in Hfuel; lia|].
    destruct v2; [|done]. exists σ. cbn [erase_range app].
    unfold Iterator_eq. rewrite bool_decide_eq_true_2 by done.
    split; [done|]. split; [done|]. split; [constructor | apply preserves_refl].
  - destruct fuel as [|fuel]; [simpl in Hfuel; lia|].
    destruct v2 as [|v v2]; [done|]. cbn [app] in Hrep.
    pose proof Hrep as [Hr _].
    destruct (head_snoc_Some l3 h) as [e He].
    assert (x ≠ e) as Hne.
    { intros ->. destruct Hr as [Hnd _]. apply head_elem in He.
      apply nodup_middle in Hnd as [_ Hx]. apply Hx.
      rewrite elem_of_app, list_elem_of_singleton in He.
      rewrite elem_of_cons, !elem_of_app. tauto. }
    cbn [erase_range app head]. unfold Iterator_eq. cbn [m_cursor].
    rewrite He, bool_decide_eq_false_2 by congruence.
    rewrite bind_unfold, (Iterator_incr_ring _ _ _ _ _ Hr). cbv beta iota.
    destruct (erase_spec σ l h l1 x (l2 ++ l3) v1 (v2 ++ v3) v Hrep H1)
      as (s & σ1 & _ & Hers & Hrep1 & Hfx & Hp1).
    rewrite bind_unfold, Hers. cbv beta iota.
    destruct (IH σ1 l1 l3 v1 v2 v3 fuel Hrep1 H1) as (σ' & Hrun & Hrep' & Hfr & Hp');
      [simpl in H2; lia | simpl in Hfuel; lia |].
    rewrite He in Hrun. exists σ'. split; [done|]. split; [done|]. split.
    + constructor; [|done].
      destruct (Hp' x) as [_ Hkeep]; [|by apply Hkeep].
      destruct Hr as [Hnd _]. by apply nodup_middle in Hnd as [_ Hx].
    + eapply preserves_trans; [exact Hp1|].
      eapply preserves_weaken; [|exact Hp'].
      intros z. rewrite !elem_of_cons, !elem_of_app, elem_of_cons, elem_of_app.
      tauto.
Qed.

(** X7. [erase(first, last)] on a range of real elements of a well-formed
    list returns [last], deallocates exactly the nodes of the range and
    leaves the elements before and after it in order; no node outside the
    list is touched. With [first = begin()] and [last = end()] the list
    ends up empty with its sentinel kept. *)
Theorem erase_range_removes_segment σ l h l1 l2 l3 (v1 v2 v3 : list T) fuel :
  m_head l = Some h →
  repr σ h (l1 ++ l2 ++ l3) (v1 ++ v2 ++ v3) →
  length l1 = length v1 → length l2 = length v2 →
  length (l1 ++ l2 ++ l3) < fuel →
  ∃ σ', erase_range fuel l (mkIter (head ((l2 ++ l3) ++ [h])))
          (mkIter (head (l3 ++ [h]))) σ
        = Ok (mkIter (head (l3 ++ [h]))) σ' ∧
        holds σ' l (v1 ++ v3) ∧
        elements fuel l σ' = Ok (v1 ++ v3) σ' ∧
        Forall (freed σ') l2 ∧
        preserves σ σ' (h :: l1 ++ l2 ++ l3).
Proof.
  intros Hh Hrep H1 H2 Hfuel. rewrite !length_app in Hfuel.
  destruct (erase_range_spec l h l2 σ l1 l3 v1 v2 v3 fuel Hrep H1 H2)
    as (σ' & He & Hrep' & Hf & Hp); [lia|].
  exists σ'. split; [done|]. split; [by exists h, (l1 ++ l3)|].
  split; [|done]. apply (elements_spec σ' l h (l1 ++ l3)); [done..|].
  rewrite length_app. lia.
Qed.

Lemma forwarded_lvalue moved_from count (v : T) :
  forwarded moved_from lvalue count v = replicate count v.
Proof. induction count as [|count IH]; [done|]. cbn. by rewrite IH. Qed.

Lemma forwarded_rvalue moved_from count : ∀ (v : T) k,
  k < count →
  forwarded moved_from rvalue count v !! k = Some (Nat.iter k moved_from v).
Proof.
  induction count as [|count IH]; intros v k Hk; [lia|].
  destruct k as [|k]; [done|]. cbn [forwarded forward_leaves lookup list_lookup].
  rewrite IH by lia. by rewrite Nat.iter_succ_r.
Qed.

Lemma length_forwarded moved_from c count : ∀ v : T,
  length (forwarded moved_from c count v) = count.
Proof. induction count as [|count IH]; intros v; [done|]. cbn. by rewrite IH. Qed.

Lemma insert_after_count_spec moved_from c l h l1 p count :
  ∀ σ l2 (vs1 vs2 : list T) v,
  repr σ h (l1 ++ l2) (vs1 ++ vs2) → length l1 = length vs1 →
  last (h :: l1) = Some p →
  ∃ σ' new,
    insert_after_count moved_from l (mkIter (Some p)) count c v σ = Ok tt σ' ∧
    repr σ' h (l1 ++ new ++ l2)
      (vs1 ++ reverse (forwarded moved_from c count v) ++ vs2) ∧
    length new = count ∧
    preserves σ σ' (h :: l1 ++ l2).
Proof.
  induction count as [|count IH]; intros σ l2 vs1 vs2 v Hrep Hlen Hp.
  - exists σ, []. split; [done|]. split; [done|]. split; [done|].
    apply preserves_refl.
  - destruct (insert_after_spec σ l h l1 l2 vs1 vs2 v p Hrep Hlen Hp)
      as (σ1 & He & Hrep1 & Hp1).
    destruct (IH σ1 (fresh (dom σ) :: l2) vs1 (v :: vs2)
                (forward_leaves moved_from c v) Hrep1 Hlen Hp)
      as (σ' & new & Hrun & Hrep' & Hnew & Hp').
    exists σ', (new ++ [fresh (dom σ)]).
    cbn [insert_after_count]. rewrite bind_unfold, He. cbv beta iota.
    split; [done|]. split; [|split].
    + cbn [forwarded]. rewrite reverse_cons, <- !app_assoc. exact Hrep'.
    + rewrite length_app. simpl. lia.
    + apply preserves_drop_fresh. eapply preserves_trans.
      * eapply preserves_weaken; [|exact Hp1].
        intros z Hz. by apply list_elem_of_further.
      * eapply preserves_weaken; [|exact Hp'].
        intros z. rewrite !elem_of_cons, !elem_of_app, elem_of_cons. tauto.
Qed.

Lemma insert_before_count_spec moved_from c l h l2 t count :
  ∀ σ l1 (vs1 vs2 : list T) v,
  repr σ h (l1 ++ l2) (vs1 ++ vs2) → length l1 = length vs1 →
  head (l2 ++ [h]) = Some t →
  ∃ σ' new,
    insert_before_count moved_from l (mkIter (Some t)) count c v σ = Ok tt σ' ∧
    repr σ' h ((l1 ++ new) ++ l2)
      ((vs1 ++ forwarded moved_from c count v) ++ vs2) ∧
    length new = count ∧
    preserves σ σ' (h :: l1 ++ l2).
Proof.
  induction count as [|count IH]; intros σ l1 vs1 vs2 v Hrep Hlen Ht.
  - exists σ, []. cbn [forwarded]. rewrite !app_nil_r. split; [done|].
    split; [done|]. split; [done|]. apply preserves_refl.
  - destruct (insert_before_spec σ l h l1 l2 vs1 vs2 v t Hrep Hlen Ht)
      as (σ1 & He & Hrep1 & Hp1).
    destruct (IH σ1 (l1 ++ [fresh (dom σ)]) (vs1 ++ [v]) vs2
                (forward_leaves moved_from c v))
      as (σ' & new & Hrun & Hrep' & Hnew & Hp').
    { rewrite <- !app_assoc. exact Hrep1. }
    { rewrite !length_app. simpl. lia. }
    { done. }
    exists σ', (fresh (dom σ) :: new).
    cbn [insert_before_count]. rewrite bind_unfold, He. cbv beta iota.
    split; [done|]. split; [|split].
    + rewrite <- !app_assoc in Hrep'. cbn [app] in Hrep'.
      cbn [forwarded]. rewrite <- !app_assoc. exact Hrep'.
    + simpl. lia.
    + apply preserves_drop_fresh. eapply preserves_trans.
      * eapply preserves_weaken; [|exact Hp1].
        intros z Hz. by apply list_elem_of_further.
      * eapply preserves_weaken; [|exact Hp'].
        intros z. rewrite !elem_of_cons, !elem_of_app, list_elem_of_singleton.
        tauto.
Qed.

End ranges.

(** X8. [insert_after(position, count, data)] and
    [insert_before(position, count, data)] at a position of a well-formed
    list return and insert [count] nodes at the position, one per round of
    [std::forward<UType>(data)]: [insert_before] puts the values handed over
    right before the position in the order of the rounds, [insert_after]
    right after it in the opposite order, and the other elements keep their
    order. For an lvalue argument the values are [count] copies of [data].
    For an rvalue argument only the first node receives [data]: round [k]
    receives what [k] moves leave of it, so that
    [insert_before(end(), 2, std::vector<int>{1})] on an empty list of
    vectors gives the vector holding 1 followed by an empty vector. *)
Theorem insert_count_forwards_each_round :
  (∀ (T : Type) (moved_from : T → T) c (σ : gmap loc (option (@Node T)))
     l h l1 l2 (vs1 vs2 : list T) p t count v,
     m_head l = Some h →
     repr σ h (l1 ++ l2) (vs1 ++ vs2) → length l1 = length vs1 →
     last (h :: l1) = Some p → head (l2 ++ [h]) = Some t →
     (∃ σ', insert_after_count moved_from l (mkIter (Some p)) count c v σ
              = Ok tt σ' ∧
            holds σ' l (vs1 ++ reverse (forwarded moved_from c count v) ++ vs2) ∧
            preserves σ σ' (h :: l1 ++ l2)) ∧
     (∃ σ', insert_before_count moved_from l (mkIter (Some t)) count c v σ
              = Ok tt σ' ∧
            holds σ' l (vs1 ++ forwarded moved_from c count v ++ vs2) ∧
            preserves σ σ' (h :: l1 ++ l2))) ∧
  (∀ (T : Type) (moved_from : T → T) count (v : T),
     forwarded moved_from lvalue count v = replicate count v) ∧
  (∀ (T : Type) (moved_from : T → T) count (v : T) k,
     k < count →
     forwarded moved_from rvalue count v !! k = Some (Nat.iter k moved_from v)) ∧
  from_empty_store
    (l ← list_default ([] : list Z);
     insert_before_count (λ _, []) l (end_ l) 2 rvalue [1%Z];;
     elements 5 l)
  = inl [[1%Z]; []] ∧
  from_empty_store
    (l ← list_default ([] : list Z);
     insert_before_count (λ _, []) l (end_ l) 2 lvalue [1%Z];;
     elements 5 l)
  = inl [[1%Z]; [1%Z]].
Proof.
  split; [|split; [|split; [|split; vm_compute; reflexivity]]].
  - intros T moved_from c σ l h l1 l2 vs1 vs2 p t count v Hh Hrep Hlen Hp Ht.
    split.
    + destruct (insert_after_count_spec moved_from c l h l1 p count σ l2
                  vs1 vs2 v Hrep Hlen Hp) as (σ' & new & He & Hrep' & _ & Hpr).
      exists σ'. split; [done|]. split; [|done]. by eexists _, _.
    + destruct (insert_before_count_spec moved_from c l h l2 t count σ l1
                  vs1 vs2 v Hrep Hlen Ht) as (σ' & new & He & Hrep' & _ & Hpr).
      exists σ'. split; [done|]. split; [|done].
      rewrite <- !app_assoc in Hrep'. by eexists _, _.
  - intros T moved_from count v. apply forwarded_lvalue.
  - intros T moved_from count v k. apply forwarded_rvalue.
Qed.


(** ** Inserting, constructing and assigning from another list *)

Section from_other_list.
Context {T : Type}.
Variable T0 : T.

Abbreviation heap := (gmap loc (option (@Node T))).
Implicit Types σ : heap.

Lemma snoc_disjoint h (d1 d2 : list loc) n (S : list loc) :
  (∀ z, z ∈ h :: d1 ++ d2 → z ∉ S) → n ∉ S →
  ∀ z, z ∈ h :: (d1 ++ [n]) ++ d2 → z ∉ S.
Proof.
  intros Hd Hn z. rewrite !elem_of_cons, !elem_of_app, list_elem_of_singleton.
  intros [Hz | [[Hz | Hz] | Hz]].
  - subst z. apply Hd, list_elem_of_here.
  - apply Hd. rewrite elem_of_cons, elem_of_app. tauto.
  - by subst z.
  - apply Hd. rewrite elem_of_cons, elem_of_app. tauto.
Qed.

Lemma preserves_step σ σ1 σ' h (d1 d2 : list loc) :
  preserves σ σ1 (h :: d1 ++ d2) →
  preserves σ1 σ' (h :: (d1 ++ [fresh (dom σ)]) ++ d2) →
  preserves σ σ' (h :: d1 ++ d2).
Proof.
  intros Hp1 Hp'. apply preserves_drop_fresh. eapply preserves_trans.
  - eapply preserves_weaken; [|exact Hp1].
    intros z Hz. by apply list_elem_of_further.
  - eapply preserves_weaken; [|exact Hp'].
    intros z. rewrite !elem_of_cons, !elem_of_app, list_elem_of_singleton.
    tauto.
Qed.

Lemma insert_before_range_spec l h d2 t ha s2 :
  ∀ s1 (w1 w2 : list T) σ d1 (u1 u2 : list T) fuel,
  repr σ ha (s1 ++ s2) (w1 ++ w2) → length s1 = length w1 →
  repr σ h (d1 ++ d2) (u1 ++ u2) → length d1 = length u1 →
  head (d2 ++ [h]) = Some t →
  (∀ z, z ∈ h :: d1 ++ d2 → z ∉ ha :: s1 ++ s2) →
  length s2 < fuel →
  ∃ σ' new,
    insert_before_range fuel l (mkIter (Some t))
      (mkIter (head (s2 ++ [ha]))) (mkIter (Some ha)) σ = Ok tt σ' ∧
    repr σ' h ((d1 ++ new) ++ d2) ((u1 ++ w2) ++ u2) ∧
    repr σ' ha (s1 ++ s2) (w1 ++ w2) ∧
    preserves σ σ' (h :: d1 ++ d2).
Proof.
  induction s2 as [|x s2 IH];
    intros s1 w1 w2 σ d1 u1 u2 fuel Hsrc Hls Hdst Hld Ht Hdisj Hfuel.
  - destruct fuel as [|fuel]; [simpl in Hfuel; lia|].
    assert (w2 = []) as ->.
    { apply repr_length in Hsrc. rewrite !length_app in Hsrc.
      destruct w2; [done | simpl in Hsrc; lia]. }
    exists σ, []. cbn [insert_before_range app head].
    unfold Iterator_eq. rewrite bool_decide_eq_true_2 by done.
    rewrite !app_nil_r in *. split; [done|]. split; [done|]. split; [done|].
    apply preserves_refl.
  - destruct fuel as [|fuel]; [simpl in Hfuel; lia|].
    pose proof Hsrc as [Hr Hd].
    apply Forall2_app_inv in Hd as [_ Hd]; [|done].
    apply Forall2_cons_inv_l in Hd as (v & w2' & Hv & _ & ->).
    cbn [insert_before_range app head]. unfold Iterator_eq. cbn [m_cursor].
    rewrite bool_decide_eq_false_2.
    2:{ intros [= ->]. by eapply ring_elem_not_head. }
    rewrite bind_unfold, (Iterator_incr_ring _ _ _ _ _ Hr). cbv beta iota.
    unfold Iterator_deref. cbn [m_cursor].
    rewrite bind_unfold, (get_data_live _ _ _ Hv). cbv beta iota.
    destruct (insert_before_spec σ l h d1 d2 u1 u2 v t Hdst Hld Ht)
      as (σ1 & He & Hdst1 & Hp1).
    rewrite bind_unfold, He. cbv beta iota.
    assert (repr σ1 ha (s1 ++ x :: s2) (w1 ++ v :: w2')) as Hsrc1.
    { eapply preserves_repr; [exact Hp1 | | exact Hsrc].
      intros z Hz Hzd. by apply (Hdisj z). }
    assert (fresh (dom σ) ∉ ha :: s1 ++ x :: s2) as Hn.
    { apply fresh_not_in_ring, Hsrc. }
    destruct (IH (s1 ++ [x]) (w1 ++ [v]) w2' σ1 (d1 ++ [fresh (dom σ)])
                (u1 ++ [v]) u2 fuel)
      as (σ' & new & Hrun & Hdst' & Hsrc' & Hp').
    + by rewrite <- !app_assoc.
    + rewrite !length_app. simpl. lia.
    + by rewrite <- !app_assoc.
    + rewrite !length_app. simpl. lia.
    + done.
    + rewrite <- (app_assoc s1). cbn [app]. by apply snoc_disjoint.
    + simpl in Hfuel. lia.
    + exists σ', (fresh (dom σ) :: new).
      rewrite <- !app_assoc in *. cbn [app] in *.
      split; [done|]. split; [done|]. split; [done|].
      eapply preserves_step; [exact Hp1|].
      by rewrite <- !app_assoc.
Qed.

Lemma insert_after_range_spec l h d2 ha s2 :
  ∀ s1 (w1 w2 : list T) σ d1 (u1 u2 : list T) p fuel,
  repr σ ha (s1 ++ s2) (w1 ++ w2) → length s1 = length w1 →
  repr σ h (d1 ++ d2) (u1 ++ u2) → length d1 = length u1 →
  last (h :: d1) = Some p →
  (∀ z, z ∈ h :: d1 ++ d2 → z ∉ ha :: s1 ++ s2) →
  length s2 < fuel →
  ∃ σ' new,
    insert_after_range fuel l (mkIter (Some p))
      (mkIter (head (s2 ++ [ha]))) (mkIter (Some ha)) σ = Ok tt σ' ∧
    repr σ' h ((d1 ++ new) ++ d2) ((u1 ++ w2) ++ u2) ∧
    repr σ' ha (s1 ++ s2) (w1 ++ w2) ∧
    preserves σ σ' (h :: d1 ++ d2).
Proof.
  induction s2 as [|x s2 IH];
    intros s1 w1 w2 σ d1 u1 u2 p fuel Hsrc Hls Hdst Hld Hp Hdisj Hfuel.
  - destruct fuel as [|fuel]; [simpl in Hfuel; lia|].
    assert (w2 = []) as ->.
    { apply repr_length in Hsrc. rewrite !length_app in Hsrc.
      destruct w2; [done | simpl in Hsrc; lia]. }
    exists σ, []. cbn [insert_after_range app head].
    unfold Iterator_eq. rewrite bool_decide_eq_true_2 by done.
    rewrite !app_nil_r in *. split; [done|]. split; [done|]. split; [done|].
    apply preserves_refl.
  - destruct fuel as [|fuel]; [simpl in Hfuel; lia|].
    pose proof Hsrc as [Hr Hd].
    apply Forall2_app_inv in Hd as [_ Hd]; [|done].
    apply Forall2_cons_inv_l in Hd as (v & w2' & Hv & _ & ->).
    cbn [insert_after_range app head]. unfold Iterator_eq. cbn [m_cursor].
    rewrite bool_decide_eq_false_2.
    2:{ intros [= ->]. by eapply ring_elem_not_head. }
    unfold Iterator_deref. cbn [m_cursor].
    rewrite bind_unfold, (get_data_live _ _ _ Hv). cbv beta iota.
    destruct (insert_after_spec σ l h d1 d2 u1 u2 v p Hdst Hld Hp)
      as (σ1 & He & Hdst1 & Hp1).
    rewrite bind_unfold, He. cbv beta iota.
    assert (repr σ1 ha (s1 ++ x :: s2) (w1 ++ v :: w2')) as Hsrc1.
    { eapply preserves_repr; [exact Hp1 | | exact Hsrc].
      intros z Hz Hzd. by apply (Hdisj z). }
    assert (fresh (dom σ) ∉ ha :: s1 ++ x :: s2) as Hn.
    { apply fresh_not_in_ring, Hsrc. }
    set (n := fresh (dom σ)) in *.
    destruct (ring_between σ1 h d1 (n :: d2) p n (proj1 Hdst1) Hp eq_refl)
      as [Hpn _].
    rewrite bind_unfold, Iterator_incr_live, Hpn by by eapply live_nxt.
    cbv beta iota.
    rewrite bind_unfold, (Iterator_incr_ring _ _ _ _ _ (proj1 Hsrc1)).
    cbv beta iota.
    destruct (IH (s1 ++ [x]) (w1 ++ [v]) w2' σ1 (d1 ++ [n])
                (u1 ++ [v]) u2 n fuel)
      as (σ' & new & Hrun & Hdst' & Hsrc' & Hp').
    + by rewrite <- !app_assoc.
    + rewrite !length_app. simpl. lia.
    + by rewrite <- !app_assoc.
    + rewrite !length_app. simpl. lia.
    + by rewrite app_comm_cons, last_snoc.
    + rewrite <- (app_assoc s1). cbn [app]. by apply snoc_disjoint.
    + simpl in Hfuel. lia.
    + exists σ', (n :: new).
      rewrite <- !app_assoc in *. cbn [app] in *.
      split; [done|]. split; [done|]. split; [done|].
      eapply preserves_step; [exact Hp1|].
      by rewrite <- !app_assoc.
Qed.

(** X9. [insert_before(position, first, last)] and
    [insert_after(position, first, last)] with [[first, last)] all of
    another well-formed list return and put that list's values, in its
    order, right before, respectively right after, the position; the source
    list and the other elements of the destination are unchanged. *)
Theorem insert_range_from_list σ l h d1 d2 (u1 u2 : list T) p t a ha la va fuel :
  m_head l = Some h →
  repr σ h (d1 ++ d2) (u1 ++ u2) → length d1 = length u1 →
  last (h :: d1) = Some p → head (d2 ++ [h]) = Some t →
  m_head a = Some ha → repr σ ha la va →
  (∀ z, z ∈ h :: d1 ++ d2 → z ∉ ha :: la) →
  length va < fuel →
  (∃ σ', (b ← begin a; insert_before_range fuel l (mkIter (Some t)) b (end_ a)) σ
         = Ok tt σ' ∧
         holds σ' l (u1 ++ va ++ u2) ∧ holds σ' a va) ∧
  (∃ σ', (b ← begin a; insert_after_range fuel l (mkIter (Some p)) b (end_ a)) σ
         = Ok tt σ' ∧
         holds σ' l (u1 ++ va ++ u2) ∧ holds σ' a va).
Proof.
  intros Hh Hdst Hld Hp Ht Hha Hsrc Hdisj Hfuel.
  rewrite <- (repr_length _ _ _ _ Hsrc) in Hfuel.
  pose proof (begin_ring σ a ha la Hha (proj1 Hsrc)) as Hb.
  split.
  - destruct (insert_before_range_spec l h d2 t ha la [] [] va σ d1 u1 u2 fuel)
      as (σ' & new & He & Hdst' & Hsrc' & _); try done.
    exists σ'. unfold end_. rewrite bind_unfold, Hb, Hha.
    split; [done|]. rewrite <- !app_assoc in Hdst'.
    split; [by eexists _, _ | by exists ha, la].
  - destruct (insert_after_range_spec l h d2 ha la [] [] va σ d1 u1 u2 p fuel)
      as (σ' & new & He & Hdst' & Hsrc' & _); try done.
    exists σ'. unfold end_. rewrite bind_unfold, Hb, Hha.
    split; [done|]. rewrite <- !app_assoc in Hdst'.
    split; [by eexists _, _ | by exists ha, la].
Qed.

End from_other_list.

(** ** Range construction, copy assignment under a propagating policy, moves *)

Section construct_assign_move.
Context {T : Type}.
Variable T0 : T.

Abbreviation heap := (gmap loc (option (@Node T))).
Implicit Types σ : heap.

(** [__M_range_init] runs the loop of [__M_clone] with the head of [*this]
    as the cursor. *)
Lemma range_init_as_clone fuel this e : ∀ s σ,
  __M_range_init fuel this (mkIter s) (mkIter e) σ
  = clone_loop fuel (m_head this) s e σ.
Proof.
  induction fuel as [|fuel IH]; intros s σ; [done|].
  cbn [__M_range_init clone_loop]. unfold Iterator_eq. cbn [m_cursor].
  destruct (decide (s = e)) as [-> | Hne].
  - rewrite bool_decide_eq_true_2 by done.
    by rewrite bool_decide_eq_false_2 by (intros H; by apply H).
  - rewrite bool_decide_eq_false_2 by done.
    rewrite bool_decide_eq_true_2 by done.
    unfold Iterator_deref, Iterator_incr. cbn [m_cursor].
    rewrite !bind_unfold. destruct (get_data s σ) as [v σ1|f]; [|done].
    rewrite !bind_unfold. destruct (__M_create_node v σ1) as [n σ2|f]; [|done].
    rewrite !bind_unfold.
    destruct (Node_push_back (m_head this) n σ2) as [[] σ3|f]; [|done].
    rewrite !bind_unfold.
    destruct (get_next s σ3) as [s' σ4|f]; [|done].
    rewrite ret_unfold. apply IH.
Qed.

Lemma range_init_spec σ this h ls (vs : list T) a ha la va fuel :
  m_head this = Some h → repr σ h ls vs →
  m_head a = Some ha → repr σ ha la va →
  (∀ z, z ∈ h :: ls → z ∉ ha :: la) →
  length la < fuel →
  ∃ σ' new,
    (b ← begin a; __M_range_init fuel this b (end_ a)) σ = Ok tt σ' ∧
    repr σ' h (ls ++ new) (vs ++ va) ∧ repr σ' ha la va ∧
    (∀ z, z ∈ h :: ls ++ new → z ∉ ha :: la) ∧
    preserves σ σ' (h :: ls).
Proof.
  intros Hh Hdst Hha Hsrc Hdisj Hfuel.
  destruct (clone_loop_spec ha la [] [] va σ h ls vs fuel)
    as (σ' & new & Hloop & Hd' & Hs' & Hdisj' & Hp); try done.
  exists σ', new. unfold end_.
  rewrite bind_unfold, (begin_ring σ a ha la Hha (proj1 Hsrc)), Hha.
  by rewrite range_init_as_clone, Hh.
Qed.

(** X10. [list(first, last)] with [[first, last)] all of a well-formed list
    returns a new list, on a sentinel and nodes allocated by the call, that
    reads as the same sequence; the source is unchanged; afterwards no run
    of mutations of either list changes what the other reads as. *)
Theorem range_construction_round_trip σ a (va : list T) fuel :
  holds σ a va → length va < fuel →
  ∃ b σ1 hb,
    (first ← begin a; list_range T0 fuel first (end_ a)) σ = Ok b σ1 ∧
    m_head b = Some hb ∧ ¬ live σ hb ∧
    preserves σ σ1 [] ∧
    elements fuel b σ1 = Ok va σ1 ∧
    elements fuel a σ1 = Ok va σ1 ∧
    (∀ ms σ2, run_mutations b ms σ1 = Ok tt σ2 →
              elements fuel a σ2 = Ok va σ2) ∧
    (∀ ms σ2, run_mutations a ms σ1 = Ok tt σ2 →
              elements fuel b σ2 = Ok va σ2).
Proof.
  intros (ha & la & Hha & Hsrc) Hfuel.
  pose proof (repr_length _ _ _ _ Hsrc) as Hlen. rewrite <- Hlen in Hfuel.
  set (hb := fresh (dom σ)). set (σ0 := alloc T0 σ).
  set (b := mkList (Some hb) 0).
  assert (repr σ0 ha la va) as Hsrc0 by by apply repr_alloc.
  assert (repr σ0 hb [] []) as Hb0 by apply list_default_spec.
  assert (hb ∉ ha :: la) as Hfr by apply fresh_not_in_ring, Hsrc.
  destruct (range_init_spec σ0 b hb [] [] a ha la va fuel eq_refl Hb0 Hha Hsrc0)
    as (σ1 & lb & Hinit & Hb & Ha & Hdisj & Hp); [|done|].
  { intros z Hz. apply list_elem_of_singleton in Hz as ->. done. }
  cbn [app] in *.
  assert (begin a σ = Ok (mkIter (head (la ++ [ha]))) σ) as Hbeg.
  { by apply begin_ring; [|apply Hsrc]. }
  assert (begin a σ0 = Ok (mkIter (head (la ++ [ha]))) σ0) as Hbeg0.
  { by apply begin_ring; [|apply Hsrc0]. }
  rewrite bind_unfold, Hbeg0 in Hinit.
  exists b, σ1, hb. split.
  { rewrite bind_unfold, Hbeg. unfold list_range.
    rewrite bind_unfold. unfold list_default.
    rewrite bind_unfold, create_node_alloc, ret_unfold. fold hb σ0 b.
    by rewrite bind_unfold, Hinit. }
  split; [done|]. split; [apply fresh_not_live|].
  split.
  { apply preserves_drop_fresh. fold hb.
    eapply preserves_trans; [apply preserves_alloc | exact Hp]. }
  assert (length lb < fuel) as Hfuelb.
  { rewrite (repr_length _ _ _ _ Hb). lia. }
  split; [by apply (elements_spec σ1 b hb lb va fuel eq_refl)|].
  split; [by apply (elements_spec σ1 a ha la va fuel Hha)|].
  split.
  - intros ms σ2 Hrun. apply (elements_spec σ2 a ha la va fuel Hha); [|done].
    apply (run_mutations_frame b hb ha la va ms σ1 σ2 eq_refl Ha); [|done].
    right. exists lb, va. by split.
  - intros ms σ2 Hrun.
    apply (elements_spec σ2 b hb lb va fuel eq_refl); [|done].
    apply (run_mutations_frame a ha hb lb va ms σ1 σ2 Hha Hb); [|done].
    right. exists la, va. split; [done|].
    intros z Hz Hzb. by apply (Hdisj z).
Qed.

(** X11. Under an allocator policy that propagates on copy assignment and is
    always equal, copy assignment from a list that is not empty appends the
    source's values to the destination instead of replacing its contents,
    and copy assignment from an empty list deallocates the destination's
    sentinel and nulls its head. *)
Theorem copy_assign_propagating_appends tr σ this h ls (vs : list T)
    a ha la va fuel :
  propagate_on_container_copy_assignment tr = true →
  is_always_equal tr = true →
  m_head this = Some h → repr σ h ls vs →
  m_head a = Some ha → repr σ ha la va →
  (∀ z, z ∈ h :: ls → z ∉ ha :: la) →
  length la < fuel →
  (va ≠ [] →
   ∃ σ', copy_assign tr fuel this a σ = Ok this σ' ∧
         holds σ' this (vs ++ va) ∧ holds σ' a va) ∧
  (va = [] →
   ∃ σ', copy_assign tr fuel this a σ = Ok (mkList None (m_alloc this)) σ' ∧
         freed σ' h).
Proof.
  intros Hpo Hae Hh Hdst Hha Hsrc Hdisj Hfuel.
  pose proof (begin_ring σ a ha la Hha (proj1 Hsrc)) as Hb.
  assert (live σ h) as Lh.
  { eapply ring_live; [apply Hdst | apply list_elem_of_here]. }
  unfold copy_assign, __M_copy_assign_true. rewrite Hpo, Hae. cbn [negb].
  rewrite bind_unfold, ret_unfold, bind_unfold, Hb. cbv beta iota.
  unfold __M_assign, end_, Iterator_eq. cbn [m_cursor]. rewrite Hha.
  split.
  - intros Hne. destruct la as [|x la'].
    { apply repr_length in Hsrc. destruct va; [done | simpl in Hsrc; lia]. }
    cbn [app head]. rewrite bool_decide_eq_false_2.
    2:{ intros [= ->].
        exact (ring_elem_not_head σ ha [] ha la' (proj1 Hsrc) eq_refl). }
    unfold empty. rewrite Hh, bool_decide_eq_true_2 by done.
    rewrite bind_unfold, ret_unfold.
    destruct (range_init_spec σ this h ls vs a ha (x :: la') va fuel
                Hh Hdst Hha Hsrc Hdisj Hfuel)
      as (σ' & new & Hinit & Hd' & Hs' & _).
    unfold end_ in Hinit. rewrite bind_unfold, Hb, Hha in Hinit.
    cbn [app head] in Hinit.
    exists σ'. rewrite bind_unfold, Hinit.
    split; [done|]. split; [by exists h, (ls ++ new) | by exists ha, (x :: la')].
  - intros ->. apply repr_length in Hsrc. destruct la; [|done].
    cbn [app head]. rewrite bool_decide_eq_true_2 by done.
    destruct fuel as [|fuel]; [lia|].
    exists (free h σ). split; [by apply clear_exec | apply freed_free_eq].
Qed.



End construct_assign_move.

(** ** What [__M_assign] never reaches, and initializer lists *)

Section assign_and_init.
Context {T : Type}.
Variable T0 : T.

Abbreviation heap := (gmap loc (option (@Node T))).
Implicit Types σ : heap.

(** X14. For a range that is not empty, [__M_assign] is [__M_range_init]
    when the head of [*this] is not null and undefined when it is: its
    element-wise assignment loop, its extension by [insert_before] and its
    truncation by [erase] are never reached, because [empty()] never returns
    false. *)
Theorem assign_never_assigns_elementwise σ fuel this first last :
  Iterator_eq first last = false →
  __M_assign fuel this first last σ =
    match m_head this with
    | Some _ => (__M_range_init fuel this first last;; mret this) σ
    | None => Fault Undefined
    end.
Proof.
  intros Hne. unfold __M_assign, empty. rewrite Hne.
  destruct (m_head this) as [h|]; [|done].
  by rewrite bool_decide_eq_true_2.
Qed.



End assign_and_init.

(** ** The example stores *)

Lemma heap_012_repr : repr heap_012 0 [3; 1; 2] [0%Z; 1%Z; 2%Z].
Proof. apply repr_check_sound. vm_compute. reflexivity. Qed.

Lemma heap_012_holds : holds heap_012 list_012 [0%Z; 1%Z; 2%Z].
Proof. exists 0, [3; 1; 2]. split; [reflexivity | apply heap_012_repr]. Qed.

Lemma heap_two_repr_012 : repr heap_two 0 [3; 1; 2] [0%Z; 1%Z; 2%Z].
Proof. apply repr_check_sound. vm_compute. reflexivity. Qed.

Lemma heap_two_repr_78 : repr heap_two 4 [5; 6] [7%Z; 8%Z].
Proof. apply repr_check_sound. vm_compute. reflexivity. Qed.

Lemma heap_two_disjoint : ∀ z, z ∈ 0 :: [3; 1; 2] → z ∉ 4 :: [5; 6].
Proof.
  intros z Hz Hz2. apply list_elem_of_In in Hz, Hz2. simpl in Hz, Hz2. lia.
Qed.

Lemma mutation_refines_sequence_witness :
  (holds heap_012 list_012 [0%Z; 1%Z; 2%Z] ∧
   in_contract (length [0%Z; 1%Z; 2%Z]) (MInsertAfter 1 9%Z) ∧
   in_range (length [0%Z; 1%Z; 2%Z]) (MInsertAfter 1 9%Z) ∧
   length (mutate (MInsertAfter 1 9%Z) [0%Z; 1%Z; 2%Z]) < 5) ∧
  ∃ σ', apply_mutation list_012 (MInsertAfter 1 9%Z) heap_012 = Ok tt σ' ∧
        holds σ' list_012 (mutate (MInsertAfter 1 9%Z) [0%Z; 1%Z; 2%Z]) ∧
        elements 5 list_012 σ'
          = Ok (mutate (MInsertAfter 1 9%Z) [0%Z; 1%Z; 2%Z]) σ' ∧
        size 5 list_012 σ'
          = Ok (length (mutate (MInsertAfter 1 9%Z) [0%Z; 1%Z; 2%Z])) σ'.
Proof.
  assert (in_range (length [0%Z; 1%Z; 2%Z]) (MInsertAfter 1 9%Z)) as Hr.
  { simpl. lia. }
  assert (length (mutate (MInsertAfter 1 9%Z) [0%Z; 1%Z; 2%Z]) < 5) as Hl.
  { vm_compute. lia. }
  split; [split_and!; try exact I; first
      [ reflexivity | assumption | exact heap_012_holds | exact heap_012_repr
      | exact heap_two_repr_012 | exact heap_two_repr_78
      | exact heap_two_disjoint ]|].
  exact (mutation_refines_sequence heap_012 list_012 [0%Z; 1%Z; 2%Z]
           (MInsertAfter 1 9%Z) 5 heap_012_holds I Hr Hl).
Defined.

Lemma push_pop_round_trip_witness :
  (holds heap_012 list_012 [0%Z; 1%Z; 2%Z] ∧ 1 ≤ length [0%Z; 1%Z; 2%Z]) ∧
  (∃ σ', run_mutations list_012 [MPushBack 9%Z; MPopBack] heap_012 = Ok tt σ' ∧
         holds σ' list_012 [0%Z; 1%Z; 2%Z]) ∧
  (∃ σ', run_mutations list_012 [MPushFront 9%Z; MPopFront] heap_012 = Ok tt σ' ∧
         holds σ' list_012 [0%Z; 1%Z; 2%Z]) ∧
  (∃ σ', run_mutations list_012 [MInsertBefore 1 9%Z; MErase 1] heap_012
         = Ok tt σ' ∧
         holds σ' list_012 [0%Z; 1%Z; 2%Z]).
Proof.
  assert (1 ≤ length [0%Z; 1%Z; 2%Z]) as Hk by (simpl; lia).
  split; [split; [apply heap_012_holds | exact Hk]|].
  exact (push_pop_round_trip heap_012 list_012 [0%Z; 1%Z; 2%Z] 9%Z 1
           heap_012_holds Hk).
Defined.

Lemma erase_range_removes_segment_witness :
  (m_head list_012 = Some 0 ∧
   repr heap_012 0 ([3] ++ [1] ++ [2]) ([0%Z] ++ [1%Z] ++ [2%Z]) ∧
   length [3] = length [0%Z] ∧ length [1] = length [1%Z] ∧
   length ([3] ++ [1] ++ [2]) < 5) ∧
  ∃ σ', erase_range 5 list_012 (mkIter (head (([1] ++ [2]) ++ [0])))
          (mkIter (head ([2] ++ [0]))) heap_012
        = Ok (mkIter (head ([2] ++ [0]))) σ' ∧
        holds σ' list_012 ([0%Z] ++ [2%Z]) ∧
        elements 5 list_012 σ' = Ok ([0%Z] ++ [2%Z]) σ' ∧
        Forall (freed σ') [1] ∧
        preserves heap_012 σ' (0 :: [3] ++ [1] ++ [2]).
Proof.
  assert (length ([3] ++ [1] ++ [2]) < 5) as Hl by (simpl; lia).
  split; [split_and!; first
      [ reflexivity | assumption | exact heap_012_holds | exact heap_012_repr
      | exact heap_two_repr_012 | exact heap_two_repr_78
      | exact heap_two_disjoint ]|].
  exact (erase_range_removes_segment heap_012 list_012 0 [3] [1] [2]
           [0%Z] [1%Z] [2%Z] 5 eq_refl heap_012_repr eq_refl eq_refl Hl).
Defined.

Lemma insert_count_forwards_each_round_witness :
  (m_head list_012 = Some 0 ∧
   repr heap_012 0 ([3] ++ [1; 2]) ([0%Z] ++ [1%Z; 2%Z]) ∧
   length [3] = length [0%Z] ∧
   last (0 :: [3]) = Some 3 ∧ head ([1; 2] ++ [0]) = Some 1) ∧
  (∃ σ', insert_after_count (λ _, 0%Z) list_012 (mkIter (Some 3)) 2 rvalue 9%Z
           heap_012 = Ok tt σ' ∧
         holds σ' list_012
           ([0%Z] ++ reverse (forwarded (λ _, 0%Z) rvalue 2 9%Z) ++ [1%Z; 2%Z]) ∧
         preserves heap_012 σ' (0 :: [3] ++ [1; 2])) ∧
  (∃ σ', insert_before_count (λ _, 0%Z) list_012 (mkIter (Some 1)) 2 rvalue 9%Z
           heap_012 = Ok tt σ' ∧
         holds σ' list_012
           ([0%Z] ++ forwarded (λ _, 0%Z) rvalue 2 9%Z ++ [1%Z; 2%Z]) ∧
         preserves heap_012 σ' (0 :: [3] ++ [1; 2])).
Proof.
  split; [split_and!; first
      [ reflexivity | assumption | exact heap_012_holds | exact heap_012_repr
      | exact heap_two_repr_012 | exact heap_two_repr_78
      | exact heap_two_disjoint ]|].
  exact (proj1 insert_count_forwards_each_round Z (λ _, 0%Z) rvalue heap_012
           list_012 0 [3] [1; 2] [0%Z] [1%Z; 2%Z] 3 1 2 9%Z
           eq_refl heap_012_repr eq_refl eq_refl eq_refl).
Defined.

Lemma insert_range_from_list_witness :
  (m_head list_012 = Some 0 ∧
   repr heap_two 0 ([3] ++ [1; 2]) ([0%Z] ++ [1%Z; 2%Z]) ∧
   length [3] = length [0%Z] ∧
   last (0 :: [3]) = Some 3 ∧ head ([1; 2] ++ [0]) = Some 1 ∧
   m_head list_78 = Some 4 ∧ repr heap_two 4 [5; 6] [7%Z; 8%Z] ∧
   (∀ z, z ∈ 0 :: [3] ++ [1; 2] → z ∉ 4 :: [5; 6]) ∧
   length [7%Z; 8%Z] < 3) ∧
  (∃ σ', (b ← begin list_78;
          insert_before_range 3 list_012 (mkIter (Some 1)) b (end_ list_78))
           heap_two = Ok tt σ' ∧
         holds σ' list_012 ([0%Z] ++ [7%Z; 8%Z] ++ [1%Z; 2%Z]) ∧
         holds σ' list_78 [7%Z; 8%Z]) ∧
  (∃ σ', (b ← begin list_78;
          insert_after_range 3 list_012 (mkIter (Some 3)) b (end_ list_78))
           heap_two = Ok tt σ' ∧
         holds σ' list_012 ([0%Z] ++ [7%Z; 8%Z] ++ [1%Z; 2%Z]) ∧
         holds σ' list_78 [7%Z; 8%Z]).
Proof.
  assert (length [7%Z; 8%Z] < 3) as Hl by (simpl; lia).
  split.
  { split_and!; first
      [ reflexivity | assumption | exact heap_012_holds | exact heap_012_repr
      | exact heap_two_repr_012 | exact heap_two_repr_78
      | exact heap_two_disjoint ]. }
  exact (insert_range_from_list heap_two list_012 0 [3] [1; 2] [0%Z] [1%Z; 2%Z]
           3 1 list_78 4 [5; 6] [7%Z; 8%Z] 3
           eq_refl heap_two_repr_012 eq_refl eq_refl eq_refl
           eq_refl heap_two_repr_78 heap_two_disjoint Hl).
Defined.

Lemma range_construction_round_trip_witness :
  (holds heap_012 list_012 [0%Z; 1%Z; 2%Z] ∧ length [0%Z; 1%Z; 2%Z] < 5) ∧
  ∃ b σ1 hb,
    (first ← begin list_012; list_range 0%Z 5 first (end_ list_012)) heap_012
      = Ok b σ1 ∧
    m_head b = Some hb ∧ ¬ live heap_012 hb ∧
    preserves heap_012 σ1 [] ∧
    elements 5 b σ1 = Ok [0%Z; 1%Z; 2%Z] σ1 ∧
    elements 5 list_012 σ1 = Ok [0%Z; 1%Z; 2%Z] σ1 ∧
    (∀ ms σ2, run_mutations b ms σ1 = Ok tt σ2 →
              elements 5 list_012 σ2 = Ok [0%Z; 1%Z; 2%Z] σ2) ∧
    (∀ ms σ2, run_mutations list_012 ms σ1 = Ok tt σ2 →
              elements 5 b σ2 = Ok [0%Z; 1%Z; 2%Z] σ2).
Proof.
  assert (length [0%Z; 1%Z; 2%Z] < 5) as Hl by (simpl; lia).
  split; [split; [apply heap_012_holds | exact Hl]|].
  exact (range_construction_round_trip 0%Z heap_012 list_012
           [0%Z; 1%Z; 2%Z] 5 heap_012_holds Hl).
Defined.

Lemma copy_assign_propagating_appends_witness :
  let tr := mkTraits true true false true in
  (propagate_on_container_copy_assignment tr = true ∧
   is_always_equal tr = true ∧
   m_head list_012 = Some 0 ∧ repr heap_two 0 [3; 1; 2] [0%Z; 1%Z; 2%Z] ∧
   m_head list_78 = Some 4 ∧ repr heap_two 4 [5; 6] [7%Z; 8%Z] ∧
   (∀ z, z ∈ 0 :: [3; 1; 2] → z ∉ 4 :: [5; 6]) ∧
   length [5; 6] < 3) ∧
  ([7%Z; 8%Z] ≠ [] →
   ∃ σ', copy_assign tr 3 list_012 list_78 heap_two = Ok list_012 σ' ∧
         holds σ' list_012 ([0%Z; 1%Z; 2%Z] ++ [7%Z; 8%Z]) ∧
         holds σ' list_78 [7%Z; 8%Z]) ∧
  ([7%Z; 8%Z] = [] →
   ∃ σ', copy_assign tr 3 list_012 list_78 heap_two
         = Ok (mkList None (m_alloc list_012)) σ' ∧
         freed σ' 0).
Proof.
  intros tr.
  assert (length [5; 6] < 3) as Hl by (simpl; lia).
  split.
  { split_and!; first
      [ reflexivity | assumption | exact heap_012_holds | exact heap_012_repr
      | exact heap_two_repr_012 | exact heap_two_repr_78
      | exact heap_two_disjoint ]. }
  exact (copy_assign_propagating_appends tr heap_two list_012 0 [3; 1; 2]
           [0%Z; 1%Z; 2%Z] list_78 4 [5; 6] [7%Z; 8%Z] 3
           eq_refl eq_refl eq_refl heap_two_repr_012
           eq_refl heap_two_repr_78 heap_two_disjoint Hl).
Defined.



Lemma assign_never_assigns_elementwise_witness :
  Iterator_eq (mkIter (Some 5)) (mkIter (Some 4)) = false ∧
  __M_assign 3 list_012 (mkIter (Some 5)) (mkIter (Some 4)) heap_two =
    match m_head list_012 with
    | Some _ =>
        (__M_range_init 3 list_012 (mkIter (Some 5)) (mkIter (Some 4));;
         mret list_012) heap_two
    | None => Fault Undefined
    end.
Proof.
  split; [reflexivity|].
  exact (assign_never_assigns_elementwise heap_two 3 list_012
           (mkIter (Some 5)) (mkIter (Some 4)) eq_refl).
Defined.


(** * The ring invariant over the interface *)

Section ring_kept.
Context {T : Type}.
Variable T0 : T.

Abbreviation heap := (gmap loc (option (@Node T))).
Implicit Types σ : heap.




End ring_kept.




